(** * cpp-json: the JSON document model of json.hpp / json.cpp

    A shallow embedding of the value tree, the compact serializer, the
    recursive-descent parser and the View accessor, followed by the
    properties of the specification that were checked against them.

    Conventions.
    - [std::string] is a list of 8-bit characters ([list ascii]).
    - A [std::shared_ptr<Node>] is an address into an explicit heap of
      nodes; nodes reached through two pointers are the same cell.
    - A C++ call yields a [result]: a value, a thrown exception, undefined
      behaviour (an access the language gives no meaning to), or, for the
      fuel-indexed parser only, exhausted fuel. *)

From Stdlib Require Import ZArith Ascii String List Sorted Lia Bool.
From stdpp Require Import base list strings.

Set Warnings "-register-all".

Local Open Scope Z_scope.
Local Open Scope nat_scope.

(** ** Characters and strings *)

Abbreviation std_string := (list ascii).

Definition lit (s : string) : std_string := list_ascii_of_string s.

Definition dquote : ascii := "034"%char.
Definition NUL : ascii := "000"%char.

(** [std::isspace] in the default "C" locale: space, \t, \n, \v, \f, \r;
    no character above 127 is white space there. *)
Definition isspace (ch : ascii) : bool :=
  let n := N_of_ascii ch in
  ((n =? 32) || ((9 <=? n) && (n <=? 13)))%N.

(** The lambda [is_number] of [parseValue]: ['0' <= ch && ch <= '9']. *)
Definition is_number (ch : ascii) : bool :=
  (("0" <=? ch) && (ch <=? "9"))%char.

(** ** Exceptions and results *)

Inductive exception : Type :=
  | Malformed                      (* throw Malformed()      *)
  | Malformed_ptr                  (* throw new Malformed()  *)
  | WrongObjectType (msg : string) (* throw WrongObjectType  *)
  | out_of_range.                  (* std::string::substr    *)

Inductive result (A : Type) : Type :=
  | Ok (a : A)
  | Throw (e : exception)
  | Undefined
  | OutOfFuel.
Arguments Ok {A} a.
Arguments Throw {A} e.
Arguments Undefined {A}.
Arguments OutOfFuel {A}.

#[global] Instance result_ret : MRet result := fun A a => Ok a.
#[global] Instance result_bind : MBind result := fun A B f m =>
  match m with
  | Ok a => f a
  | Throw e => Throw e
  | Undefined => Undefined
  | OutOfFuel => OutOfFuel
  end.
#[global] Instance result_fmap : FMap result := fun A B f m =>
  match m with
  | Ok a => Ok (f a)
  | Throw e => Throw e
  | Undefined => Undefined
  | OutOfFuel => OutOfFuel
  end.

(** [s[i]]: defined for [i <= s.size()], where [s[s.size()]] is the
    terminating NUL; beyond that the access is undefined. *)
Definition string_at (s : std_string) (i : nat) : result ascii :=
  match s !! i with
  | Some c => Ok c
  | None => if i =? length s then Ok NUL else Undefined
  end.

(** [s.substr(pos, n)]: throws [std::out_of_range] when [pos > s.size()]. *)
Definition substr (s : std_string) (pos n : nat) : result std_string :=
  if length s <? pos then Throw out_of_range else Ok (take n (drop pos s)).

Definition string_eqb (a b : std_string) : bool := bool_decide (a = b).

(** ** Integers as text *)

Definition INT_MAX : Z := 2147483647.
Definition INT_MIN : Z := -2147483648.

Definition digit_char (d : Z) : ascii := ascii_of_N (48 + Z.to_N d).
Definition digit_val (c : ascii) : Z := Z.of_N (N_of_ascii c) - 48.

(** Decimal digits of a non-negative number, most significant first.  An
    [int] has at most ten of them, which bounds the recursion. *)
Fixpoint digits_of (fuel : nat) (n : Z) (acc : std_string) : std_string :=
  match fuel with
  | O => acc
  | S fuel' =>
      let acc' := digit_char (n mod 10) :: acc in
      if (n <? 10)%Z then acc' else digits_of fuel' (n / 10) acc'
  end.

(** [os << value_] for [ValueNode<int>]. *)
Definition int_text (z : Z) : std_string :=
  if (z <? 0)%Z then "-"%char :: digits_of 10 (- z) [] else digits_of 10 z [].

Fixpoint atoi_digits (acc : Z) (s : std_string) : Z :=
  match s with
  | c :: s' => if is_number c then atoi_digits (acc * 10 + digit_val c) s' else acc
  | [] => acc
  end.

Fixpoint skip_space (s : std_string) : std_string :=
  match s with
  | c :: s' => if isspace c then skip_space s' else s
  | [] => []
  end.

(** [std::atoi]: leading white space, an optional sign, then digits; a
    value that does not fit an [int] is undefined. *)
Definition atoi (s : std_string) : result Z :=
  let v := match skip_space s with
           | "-"%char :: r => (- atoi_digits 0 r)%Z
           | "+"%char :: r => atoi_digits 0 r
           | r => atoi_digits 0 r
           end in
  if ((INT_MIN <=? v) && (v <=? INT_MAX))%Z then Ok v else Undefined.

(** ** The whitespace pass of [parse] *)

(** The loop [for (char ch : str)] with its flag [inside]. *)
Fixpoint strip_from (inside : bool) (str : std_string) : std_string :=
  match str with
  | [] => []
  | ch :: rest =>
      let inside := if Ascii.eqb ch dquote then negb inside else inside in
      if isspace ch && negb inside then strip_from inside rest
      else ch :: strip_from inside rest
  end.

Definition str_clean (str : std_string) : std_string := strip_from false str.

(** The same pass in the words of the specification: position [i] lies in
    a string region when an odd number of quotes occurs up to and
    including it, and exactly the white space outside such regions goes. *)
Definition quotes_upto (str : std_string) (i : nat) : nat :=
  length (List.filter (Ascii.eqb dquote) (take (S i) str)).

Definition in_string (str : std_string) (i : nat) : bool :=
  Nat.odd (quotes_upto str i).

Definition kept_at (str : std_string) (i : nat) : std_string :=
  match str !! i with
  | Some ch => if isspace ch && negb (in_string str i) then [] else [ch]
  | None => []
  end.

Definition strip_spec (str : std_string) : std_string :=
  flat_map (kept_at str) (seq 0 (length str)).

(** ** The scanning loops of the scalar parser

    Both loops only move the cursor forward, so they are written over the
    text from the cursor on; the cursor advances by the length of what was
    scanned. *)

(** [while (json[index] == '.' || is_number(json[index]))]: the scanned
    token and the final [is_float].  At the end of the text [json[size]] is
    NUL, which stops the loop. *)
Fixpoint scan_number (rest : std_string) (is_float : bool) : std_string * bool :=
  match rest with
  | ch :: rest' =>
      if Ascii.eqb ch "."%char || is_number ch then
        let '(number, fl) :=
          scan_number rest' (if Ascii.eqb ch "."%char then true else is_float) in
        (ch :: number, fl)
      else ([], is_float)
  | [] => ([], is_float)
  end.

(** The number token in the words of the specification: a run of digits
    with at most one dot in it. *)
Fixpoint spec_number_run (seen_dot : bool) (rest : std_string) : std_string :=
  match rest with
  | ch :: rest' =>
      if is_number ch then ch :: spec_number_run seen_dot rest'
      else if Ascii.eqb ch "."%char && negb seen_dot
           then ch :: spec_number_run true rest'
           else []
  | [] => []
  end.

(** The loop [while (json[index] != dquote) key << json[index++]]: the characters
    before the next quote.  Without one the loop passes [json[size]] and
    reads beyond the buffer. *)
Fixpoint scan_string (rest : std_string) : result std_string :=
  match rest with
  | ch :: rest' =>
      if Ascii.eqb ch dquote then Ok [] else cons ch <$> scan_string rest'
  | [] => Undefined
  end.

(** ** [std::map<std::string, V>]

    The entries in ascending key order, keys compared as [std::string]
    does (lexicographically, characters as unsigned bytes). *)

Definition key_compare (a b : std_string) : comparison :=
  String.compare (string_of_list_ascii a) (string_of_list_ascii b).

Section std_map.
Context {V : Type}.

(** [m.find(key)]: [None] stands for [m.end()]. *)
Fixpoint map_find (key : std_string) (m : list (std_string * V)) : option V :=
  match m with
  | [] => None
  | (k, v) :: m' => if string_eqb k key then Some v else map_find key m'
  end.

(** [m[key] = v]: overwrites the entry of an existing key, inserts a new
    one at its place in the order otherwise. *)
Fixpoint map_assign (key : std_string) (v : V) (m : list (std_string * V))
  : list (std_string * V) :=
  match m with
  | [] => [(key, v)]
  | (k, x) :: m' =>
      match key_compare key k with
      | Lt => (key, v) :: m
      | Eq => (k, v) :: m'
      | Gt => (k, x) :: map_assign key v m'
      end
  end.

Definition key_lt (a b : std_string * V) : Prop :=
  key_compare a.1 b.1 = Lt.

(** The invariant of a [std::map]: strictly ascending keys. *)
Definition map_ok (m : list (std_string * V)) : Prop :=
  StronglySorted key_lt m.
End std_map.

(** ** Kinds of node *)

Module ValueType.
Inductive Concrete : Type := Object | List | String | Float | Int | Bool | Null.

Definition toString (c : Concrete) : string :=
  match c with
  | Object => "Object"
  | List => "List"
  | String => "String"
  | Float => "Float"
  | Int => "Int"
  | Bool => "Bool"
  | Null => "null"
  end.

#[global] Instance Concrete_eq_dec : EqDecision Concrete.
Proof. solve_decision. Defined.
End ValueType.

(** The types admitted by the concept [is_json_leaf_type]. *)
Inductive leaf_type : Type := leaf_float | leaf_int | leaf_string | leaf_bool.

(** [ValueType::get<T>()]. *)
Definition ValueType_get (T : leaf_type) : ValueType.Concrete :=
  match T with
  | leaf_string => ValueType.String
  | leaf_float => ValueType.Float
  | leaf_int => ValueType.Int
  | leaf_bool => ValueType.Bool
  end.

Definition NotObject : exception := WrongObjectType "This is not a json object.".
Definition NotList : exception := WrongObjectType "This is not a list object.".
Definition NotLeaf (T : leaf_type) : exception :=
  WrongObjectType
    (String.append "This is not leaf type "
       (String.append (ValueType.toString (ValueType_get T)) ".")).

(** A [std::shared_ptr<Node>]: the address of a heap cell. *)
Abbreviation ptr := nat.

(** A [View] holds its own copy of the pointer to the node it is bound to;
    a [Json] document holds the pointer to its root. *)
Record View : Type := mkView { node : ptr }.
Record Json : Type := mkJson { root : ptr }.

(** A C string: the characters of the buffer before the first NUL. *)
Fixpoint std_string_of_cstr (value : list ascii) : std_string :=
  match value with
  | c :: value' => if Ascii.eqb c NUL then [] else c :: std_string_of_cstr value'
  | [] => []
  end.

(** ** A float for the closed examples

    The examples at the end run the code on given texts; there a float is
    the token it was read from, and is written as that token. *)
Definition token_float : Type := std_string.
Definition token_atof : std_string -> token_float := id.
Definition token_float_text : token_float -> std_string := id.

(** [quoted s]: the characters of [s] between two quotes. *)
Definition quoted (s : string) : std_string := dquote :: lit s ++ [dquote].

(** The sample document of the specification: a person with a name, an
    age and a list of friends. *)
Definition sample_text : std_string :=
  lit "{" ++ quoted "name" ++ lit ":" ++ quoted "Jane" ++ lit ","
  ++ quoted "age" ++ lit ":24," ++ quoted "student" ++ lit ":true,"
  ++ quoted "friends" ++ lit ":[" ++ quoted "Bob" ++ lit ",{"
  ++ quoted "name" ++ lit ":" ++ quoted "John" ++ lit ","
  ++ quoted "age" ++ lit ":25," ++ quoted "student" ++ lit ":false,"
  ++ quoted "money" ++ lit ":100.34}]}".

Section Json.

(** The platform's [float], its conversion from text ([std::atof], then
    narrowed to [float]) and its stream output ([os << value_]) are left
    open: binary floating point is outside this development. *)
Context {float : Type}.
Variable atof : std_string -> float.
Variable float_text : float -> std_string.

(** ** Value trees

    A tree of nodes none of which is reached twice: what the parser
    builds, and what the serializer walks. *)
Inductive Value : Type :=
  | VNull
  | VBool (value_ : bool)
  | VInt (value_ : Z)
  | VFloat (value_ : float)
  | VString (value_ : std_string)
  | VList (children : list Value)
  | VObject (children : list (std_string * Value)).

(** ** Compact serialization: the [dump] overrides *)
Fixpoint dump (v : Value) : std_string :=
  match v with
  | VNull => lit "null"
  | VBool value_ => lit (if value_ then "true" else "false")
  | VInt value_ => int_text value_
  | VFloat value_ => float_text value_
  | VString value_ => dquote :: value_ ++ [dquote]
  | VList children =>
      "["%char ::
      (fix items (l : list Value) : std_string :=
         match l with
         | [] => []
         | child :: l' =>
             dump child
             ++ (match l' with [] => [] | _ :: _ => [","%char] end)
             ++ items l'
         end) children
      ++ ["]"%char]
  | VObject children =>
      "{"%char ::
      (fix items (l : list (std_string * Value)) : std_string :=
         match l with
         | [] => []
         | (key, value) :: l' =>
             dquote :: key ++ dquote :: ":"%char :: dump value
             ++ (match l' with [] => [] | _ :: _ => [","%char] end)
             ++ items l'
         end) children
      ++ ["}"%char]
  end.

(** The loops of [ListNode::dump] and [ObjectNode::dump] on their own. *)
Definition dump_items : list Value -> std_string :=
  fix items (l : list Value) : std_string :=
    match l with
    | [] => []
    | child :: l' =>
        dump child
        ++ (match l' with [] => [] | _ :: _ => [","%char] end)
        ++ items l'
    end.

Definition dump_entries : list (std_string * Value) -> std_string :=
  fix items (l : list (std_string * Value)) : std_string :=
    match l with
    | [] => []
    | (key, value) :: l' =>
        dquote :: key ++ dquote :: ":"%char :: dump value
        ++ (match l' with [] => [] | _ :: _ => [","%char] end)
        ++ items l'
    end.

(** Induction over a tree and the children of its containers. *)
Fixpoint Value_ind' (P : Value -> Prop)
    (Hnull : P VNull)
    (Hbool : forall b, P (VBool b))
    (Hint : forall z, P (VInt z))
    (Hfloat : forall f, P (VFloat f))
    (Hstring : forall s, P (VString s))
    (Hlist : forall children, Forall P children -> P (VList children))
    (Hobject : forall children,
        Forall (fun kv => P kv.2) children -> P (VObject children))
    (v : Value) {struct v} : P v :=
  match v with
  | VNull => Hnull
  | VBool b => Hbool b
  | VInt z => Hint z
  | VFloat f => Hfloat f
  | VString s => Hstring s
  | VList children =>
      Hlist children
        ((fix go (l : list Value) : Forall P l :=
            match l with
            | [] => List.Forall_nil P
            | c :: l' =>
                @List.Forall_cons _ P c l'
                  (Value_ind' P Hnull Hbool Hint Hfloat Hstring Hlist Hobject c)
                  (go l')
            end) children)
  | VObject children =>
      Hobject children
        ((fix go (l : list (std_string * Value)) : Forall (fun kv => P kv.2) l :=
            match l with
            | [] => List.Forall_nil _
            | kv :: l' =>
                @List.Forall_cons _ (fun kv => P kv.2) kv l'
                  (Value_ind' P Hnull Hbool Hint Hfloat Hstring Hlist Hobject kv.2)
                  (go l')
            end) children)
  end.

(** ** The parser *)

(** [parseValue]: the scalar parser.  The pair returned is the node and
    the cursor after it. *)
Definition parseValue (json : std_string) (index : nat) : result (Value * nat) :=
  t ← substr json index 4;
  if string_eqb t (lit "true") then Ok (VBool true, index + 4) else
  f ← substr json index 5;
  if string_eqb f (lit "false") then Ok (VBool false, index + 5) else
  ch ← string_at json index;
  if is_number ch then
    let '(number, is_float) := scan_number (drop index json) false in
    let index := index + length number in
    if is_float then Ok (VFloat (atof number), index)
    else z ← atoi number; Ok (VInt z, index)
  else if Ascii.eqb ch dquote then
    let index := S index in
    string ← scan_string (drop index json);
    Ok (VString string, S (index + length string))
  else Throw Malformed_ptr.

(** [parseRecursively], and the [while] loops of [parseObject] and
    [parseList] with the node under construction.  One unit of fuel is
    spent per call and per loop iteration. *)
Fixpoint parseRecursively (fuel : nat) (json : std_string) (index : nat)
  {struct fuel} : result (Value * nat) :=
  match fuel with
  | O => OutOfFuel
  | S fuel =>
      ch ← string_at json index;
      if Ascii.eqb ch "{"%char then parseObject_loop fuel json (S index) []
      else if Ascii.eqb ch "["%char then parseList_loop fuel json (S index) []
      else parseValue json index
  end
with parseObject_loop (fuel : nat) (json : std_string) (index : nat)
       (node : list (std_string * Value)) {struct fuel} : result (Value * nat) :=
  match fuel with
  | O => OutOfFuel
  | S fuel =>
      ch ← string_at json index;
      if Ascii.eqb ch "}"%char then Ok (VObject node, S index)
      else if negb (Ascii.eqb ch dquote) then Throw Malformed
      else
        let index := S index in
        key ← scan_string (drop index json);
        let index := index + length key in
        let index := S (S index) in
        '(value, index) ← parseRecursively fuel json index;
        ch ← string_at json index;
        let index := if negb (Ascii.eqb ch "}"%char) then S index else index in
        parseObject_loop fuel json index (map_assign key value node)
  end
with parseList_loop (fuel : nat) (json : std_string) (index : nat)
       (node : list Value) {struct fuel} : result (Value * nat) :=
  match fuel with
  | O => OutOfFuel
  | S fuel =>
      ch ← string_at json index;
      if Ascii.eqb ch "]"%char then Ok (VList node, S index)
      else
        '(child, index) ← parseRecursively fuel json index;
        ch ← string_at json index;
        let index := if negb (Ascii.eqb ch "]"%char) then S index else index in
        parseList_loop fuel json index (node ++ [child])
  end.

(** [parseObject] and [parseList]: skip the opening bracket, start from
    an empty node. *)
Definition parseObject (fuel : nat) (json : std_string) (index : nat) :=
  parseObject_loop fuel json (S index) [].
Definition parseList (fuel : nat) (json : std_string) (index : nat) :=
  parseList_loop fuel json (S index) [].

(** [parse]: the whitespace pass, then the descent from cursor 0.  A
    call or an iteration is followed by at most one more before the
    cursor moves forward, so twice the length of the buffer bounds the
    fuel needed ([parse_fuel_suffices] below). *)
Definition parse (str : std_string) : result Value :=
  let str_clean := strip_from false str in
  fst <$> parseRecursively (2 * length str_clean + 3) str_clean 0.

(** ** Nodes on the heap

    The class hierarchy under [Node]; a container holds pointers to its
    children. *)
Inductive Node : Type :=
  | NullNode
  | ObjectNode (children : list (std_string * ptr))
  | ListNode (children : list ptr)
  | ValueNode_bool (value_ : bool)
  | ValueNode_int (value_ : Z)
  | ValueNode_float (value_ : float)
  | ValueNode_string (value_ : std_string).

(** [Node::type()]. *)
Definition type (n : Node) : ValueType.Concrete :=
  match n with
  | NullNode => ValueType.Null
  | ObjectNode _ => ValueType.Object
  | ListNode _ => ValueType.List
  | ValueNode_bool _ => ValueType.Bool
  | ValueNode_int _ => ValueType.Int
  | ValueNode_float _ => ValueType.Float
  | ValueNode_string _ => ValueType.String
  end.

(** [std::make_shared]: a fresh cell, at the next address. *)
Definition make_shared (n : Node) (h : list Node) : ptr * list Node :=
  (length h, h ++ [n]).

(** The tree under a pointer, followed through the heap. *)
Fixpoint load (fuel : nat) (h : list Node) (p : ptr) : option Value :=
  match fuel with
  | O => None
  | S fuel =>
      match h !! p with
      | None => None
      | Some NullNode => Some VNull
      | Some (ValueNode_bool b) => Some (VBool b)
      | Some (ValueNode_int z) => Some (VInt z)
      | Some (ValueNode_float f) => Some (VFloat f)
      | Some (ValueNode_string s) => Some (VString s)
      | Some (ListNode children) => VList <$> mapM (load fuel h) children
      | Some (ObjectNode children) =>
          VObject <$> mapM (fun kv => pair kv.1 <$> load fuel h kv.2) children
      end
  end.

(** [Json::dump]: the text written to the stream.  A chain of distinct
    cells is no longer than the heap. *)
Definition Json_dump (h : list Node) (j : Json) : option std_string :=
  dump <$> load (S (length h)) h (root j).

(** ** Construction *)

Definition leaf (T : leaf_type) : Type :=
  match T with
  | leaf_float => float
  | leaf_int => Z
  | leaf_string => std_string
  | leaf_bool => bool
  end.

Definition ValueNode (T : leaf_type) : leaf T -> Node :=
  match T with
  | leaf_float => ValueNode_float
  | leaf_int => ValueNode_int
  | leaf_string => ValueNode_string
  | leaf_bool => ValueNode_bool
  end.

(** [Json::Json(T value)]. *)
Definition Json_leaf (T : leaf_type) (value : leaf T) (h : list Node)
  : Json * list Node :=
  let '(p, h) := make_shared (ValueNode T value) h in (mkJson p, h).

(** [Json::Json(const char* value)], which delegates to
    [Json(std::string(value))]. *)
Definition Json_cstr (value : list ascii) (h : list Node) : Json * list Node :=
  Json_leaf leaf_string (std_string_of_cstr value) h.

(** [ObjectNode::addOrEditChild] and [ListNode::addChild] on the node at [p]. *)
Definition addOrEditChild (h : list Node) (p : ptr) (key : std_string) (child : ptr)
  : list Node :=
  match h !! p with
  | Some (ObjectNode children) =>
      <[p := ObjectNode (map_assign key child children)]> h
  | _ => h
  end.

Definition addChild (h : list Node) (p : ptr) (child : ptr) : list Node :=
  match h !! p with
  | Some (ListNode children) => <[p := ListNode (children ++ [child])]> h
  | _ => h
  end.

(** [Json::array]. *)
Definition Json_array (elems : list Json) (h : list Node) : Json * list Node :=
  let '(node, h) := make_shared (ListNode []) h in
  let h := fold_left (fun h value => addChild h node (root value)) elems h in
  (mkJson node, h).

(** [Json::Json(std::initializer_list<std::pair<std::string, Json>>)]. *)
Definition Json_object (elems : list (std_string * Json)) (h : list Node)
  : Json * list Node :=
  let '(node, h) := make_shared (ObjectNode []) h in
  let h := fold_left (fun h kv => addOrEditChild h node kv.1 (root kv.2)) elems h in
  (mkJson node, h).

(** A parsed tree placed on the heap, every node in a cell of its own. *)
Fixpoint alloc (v : Value) (h : list Node) : ptr * list Node :=
  match v with
  | VNull => make_shared NullNode h
  | VBool b => make_shared (ValueNode_bool b) h
  | VInt z => make_shared (ValueNode_int z) h
  | VFloat f => make_shared (ValueNode_float f) h
  | VString s => make_shared (ValueNode_string s) h
  | VList children =>
      let '(ps, h) :=
        (fix go (l : list Value) (h : list Node) : list ptr * list Node :=
           match l with
           | [] => ([], h)
           | c :: l' =>
               let '(p, h) := alloc c h in
               let '(ps, h) := go l' h in (p :: ps, h)
           end) children h in
      make_shared (ListNode ps) h
  | VObject children =>
      let '(ps, h) :=
        (fix go (l : list (std_string * Value)) (h : list Node)
           : list (std_string * ptr) * list Node :=
           match l with
           | [] => ([], h)
           | (k, c) :: l' =>
               let '(p, h) := alloc c h in
               let '(ps, h) := go l' h in ((k, p) :: ps, h)
           end) children h in
      make_shared (ObjectNode ps) h
  end.

(** A document made from text, as [fromFile] does with a file's content. *)
Definition Json_parse (str : std_string) (h : list Node) : result (Json * list Node) :=
  v ← parse str;
  let '(p, h) := alloc v h in Ok (mkJson p, h).

(** ** Navigation *)

(** [Json::operator[](std::string key)]. *)
Definition Json_index_key (h : list Node) (j : Json) (key : std_string)
  : result (View * list Node) :=
  match h !! root j with
  | None => Undefined
  | Some n =>
      if negb (bool_decide (type n = ValueType.Object)) then Throw NotObject
      else
        match n with
        | ObjectNode children =>
            match map_find key children with
            | None =>
                let '(newNode, h) := make_shared NullNode h in
                let h := addOrEditChild h (root j) key newNode in
                Ok (mkView newNode, h)
            | Some it => Ok (mkView it, h)
            end
        | _ => Undefined
        end
  end.

(** [Json::View::operator[](std::string key)]. *)
Definition View_index_key (h : list Node) (v : View) (key : std_string)
  : result (View * list Node) :=
  match h !! node v with
  | None => Undefined
  | Some n =>
      if negb (bool_decide (type n = ValueType.Object)) then Throw NotObject
      else
        match n with
        | ObjectNode children =>
            match map_find key children with
            | None =>
                let '(newNode, h) := make_shared NullNode h in
                let h := addOrEditChild h (node v) key newNode in
                Ok (mkView newNode, h)
            | Some it => Ok (mkView it, h)
            end
        | _ => Undefined
        end
  end.

(** [Json::operator[](size_t idx)] and [Json::View::operator[](size_t idx)]:
    the vector is indexed without a bounds check. *)
Definition Json_index_idx (h : list Node) (j : Json) (idx : nat) : result View :=
  match h !! root j with
  | None => Undefined
  | Some n =>
      if negb (bool_decide (type n = ValueType.List)) then Throw NotList
      else
        match n with
        | ListNode children =>
            match children !! idx with
            | Some c => Ok (mkView c)
            | None => Undefined
            end
        | _ => Undefined
        end
  end.

Definition View_index_idx (h : list Node) (v : View) (idx : nat) : result View :=
  match h !! node v with
  | None => Undefined
  | Some n =>
      if negb (bool_decide (type n = ValueType.List)) then Throw NotList
      else
        match n with
        | ListNode children =>
            match children !! idx with
            | Some c => Ok (mkView c)
            | None => Undefined
            end
        | _ => Undefined
        end
  end.

(** ** Typed access to leaves *)

(** [std::static_pointer_cast<ValueNode<T>>(p)->value()]: the cast
    checks nothing, and using its result is defined only when the node
    really is a [ValueNode<T>]. *)
Definition value_of (T : leaf_type) (n : Node) : result (leaf T) :=
  match T return result (leaf T) with
  | leaf_float => match n with ValueNode_float f => Ok f | _ => Undefined end
  | leaf_int => match n with ValueNode_int z => Ok z | _ => Undefined end
  | leaf_string => match n with ValueNode_string s => Ok s | _ => Undefined end
  | leaf_bool => match n with ValueNode_bool b => Ok b | _ => Undefined end
  end.

(** [Json::View::as<T>()] and [Json::as<T>()]. *)
Definition View_as (T : leaf_type) (h : list Node) (v : View) : result (leaf T) :=
  match h !! node v with
  | None => Undefined
  | Some n => value_of T n
  end.

Definition Json_as (T : leaf_type) (h : list Node) (j : Json) : result (leaf T) :=
  match h !! root j with
  | None => Undefined
  | Some n => value_of T n
  end.

(** [Json::View::operator=(T value)]: assigns through the cast pointer
    with [ValueNode<T>::operator=], and returns the view. *)
Definition View_assign (T : leaf_type) (h : list Node) (v : View) (value : leaf T)
  : result (View * list Node) :=
  match h !! node v with
  | None => Undefined
  | Some n =>
      _ ← value_of T n;
      Ok (v, <[node v := ValueNode T value]> h)
  end.

(** ** Ownership *)

Definition children_of (n : Node) : list ptr :=
  match n with
  | ObjectNode children => children.*2
  | ListNode children => children
  | _ => []
  end.

(** The parents of [c]: the address of every container once for each of
    its slots that holds [c]. *)
Definition owners (h : list Node) (c : ptr) : list ptr :=
  concat (imap (fun p n => replicate (count_occ Nat.eq_dec (children_of n) c) p) h).

(** Exclusive ownership: no node sits in two slots. *)
Definition exclusively_owned (h : list Node) : Prop :=
  forall c, length (owners h c) <= 1.

(** ** Trees that survive serialization

    Leaves the scalar grammar can read back: booleans, integers without
    sign, strings and keys free of quotes. *)
Definition quote_free (s : std_string) : Prop := dquote ∉ s.

Inductive printable : Value -> Prop :=
  | printable_bool b : printable (VBool b)
  | printable_int z : (0 <= z <= INT_MAX)%Z -> printable (VInt z)
  | printable_string s : quote_free s -> printable (VString s)
  | printable_list children :
      Forall printable children -> printable (VList children)
  | printable_object children :
      map_ok children ->
      Forall (fun kv => quote_free kv.1 /\ printable kv.2) children ->
      printable (VObject children).

(** ** Notions used in the statements *)

Definition digit_or_dot (c : ascii) : Prop := c = "."%char \/ is_number c = true.

(** Where the number loop stops: at the end of the text or before a
    character that is neither a digit nor a dot. *)
Definition number_ends (tail : std_string) : Prop :=
  match tail with
  | [] => True
  | c :: _ => ~ digit_or_dot c
  end.

(** [parses json v]: wherever the text of [v] stands in [json], followed
    by something that ends a number, the descent reads [v] back and
    leaves the cursor behind it. *)
Definition parses (json : std_string) (v : Value) : Prop :=
  forall fuel index tail,
    drop index json = dump v ++ tail ->
    number_ends tail ->
    length (dump v) < fuel ->
    parseRecursively fuel json index = Ok (v, index + length (dump v)).

(** [finishes index json r]: the run that gave [r] from cursor [index] did
    not stop for lack of fuel, and a node it returned was read from inside
    the buffer with the cursor moved forward. *)
Definition finishes (index : nat) (json : std_string) (r : result (Value * nat)) : Prop :=
  r <> OutOfFuel /\ forall v i', r = Ok (v, i') -> index < i' <= length json.

(** ** The human-readable rendering: the [pretty] overrides

    Every element of a container is followed by a comma and a space, the
    last one too. *)
Fixpoint pretty (v : Value) : std_string :=
  match v with
  | VNull => lit "null"
  | VBool value_ => lit (if value_ then "true" else "false")
  | VInt value_ => int_text value_
  | VFloat value_ => float_text value_
  | VString value_ => dquote :: value_ ++ [dquote]
  | VList children =>
      lit "[ "
      ++ (fix items (l : list Value) : std_string :=
            match l with
            | [] => []
            | child :: l' => pretty child ++ lit ", " ++ items l'
            end) children
      ++ lit "]"
  | VObject children =>
      lit "{ "
      ++ (fix items (l : list (std_string * Value)) : std_string :=
            match l with
            | [] => []
            | (key, value) :: l' =>
                lit " " ++ dquote :: key ++ dquote :: lit " : "
                ++ pretty value ++ lit ", " ++ items l'
            end) children
      ++ lit " }"
  end.

Definition pretty_items : list Value -> std_string :=
  fix items (l : list Value) : std_string :=
    match l with
    | [] => []
    | child :: l' => pretty child ++ lit ", " ++ items l'
    end.

Definition pretty_entries : list (std_string * Value) -> std_string :=
  fix items (l : list (std_string * Value)) : std_string :=
    match l with
    | [] => []
    | (key, value) :: l' =>
        lit " " ++ dquote :: key ++ dquote :: lit " : "
        ++ pretty value ++ lit ", " ++ items l'
    end.

(** What the whitespace pass leaves of a pretty rendering: the compact
    text with a comma after every element. *)
Fixpoint compact_trailing (v : Value) : std_string :=
  match v with
  | VList children =>
      "["%char ::
      (fix items (l : list Value) : std_string :=
         match l with
         | [] => []
         | child :: l' => compact_trailing child ++ ","%char :: items l'
         end) children
      ++ ["]"%char]
  | VObject children =>
      "{"%char ::
      (fix items (l : list (std_string * Value)) : std_string :=
         match l with
         | [] => []
         | (key, value) :: l' =>
             dquote :: key ++ dquote :: ":"%char :: compact_trailing value
             ++ ","%char :: items l'
         end) children
      ++ ["}"%char]
  | leaf => dump leaf
  end.

Definition trailing_items : list Value -> std_string :=
  fix items (l : list Value) : std_string :=
    match l with
    | [] => []
    | child :: l' => compact_trailing child ++ ","%char :: items l'
    end.

Definition trailing_entries : list (std_string * Value) -> std_string :=
  fix items (l : list (std_string * Value)) : std_string :=
    match l with
    | [] => []
    | (key, value) :: l' =>
        dquote :: key ++ dquote :: ":"%char :: compact_trailing value
        ++ ","%char :: items l'
    end.

(** [parses_trailing json v]: as [parses], for the text with a comma
    after every element. *)
Definition parses_trailing (json : std_string) (v : Value) : Prop :=
  forall fuel index tail,
    drop index json = compact_trailing v ++ tail ->
    number_ends tail ->
    length (compact_trailing v) < fuel ->
    parseRecursively fuel json index = Ok (v, index + length (compact_trailing v)).

(** ** Well-formed heaps

    Every child pointer leads to a cell, and the cells can be ranked so
    that a child ranks below its parent: no pointer dangles and no chain
    of children comes back to where it started. *)
Definition heap_ok (h : list Node) : Prop :=
  exists rank : ptr -> nat,
    forall p n,
      h !! p = Some n ->
      rank p < length h
      /\ Forall (fun c => c < length h /\ rank c < rank p) (children_of n).

(** The loops of [alloc] over the children of a List and of an Object. *)
Definition alloc_list : list Value -> list Node -> list ptr * list Node :=
  fix go (l : list Value) (h : list Node) : list ptr * list Node :=
    match l with
    | [] => ([], h)
    | c :: l' =>
        let '(p, h) := alloc c h in
        let '(ps, h) := go l' h in (p :: ps, h)
    end.

Definition alloc_entries
  : list (std_string * Value) -> list Node -> list (std_string * ptr) * list Node :=
  fix go (l : list (std_string * Value)) (h : list Node)
    : list (std_string * ptr) * list Node :=
    match l with
    | [] => ([], h)
    | (k, c) :: l' =>
        let '(p, h) := alloc c h in
        let '(ps, h) := go l' h in ((k, p) :: ps, h)
    end.

(** [allocated v h r]: the result [r] of [alloc] is the heap [h] followed
    by new cells, the last of which is the root, and the root holds the
    tree [v]. *)
Definition allocated (v : Value) (h : list Node) (r : ptr * list Node) : Prop :=
  exists k n,
    r = (length (h ++ k), (h ++ k) ++ [n])
    /\ load (S (length k)) ((h ++ k) ++ [n]) (length (h ++ k)) = Some v.

(** * Properties *)

(** ** Facts about [std::map] *)

Lemma key_compare_refl (a : std_string) : key_compare a a = Eq.
Proof.
  unfold key_compare.
  pose proof (String.compare_antisym (string_of_list_ascii a) (string_of_list_ascii a)) as H.
  destruct (String.compare _ _); done.
Qed.

Lemma key_compare_eq (a b : std_string) : key_compare a b = Eq <-> a = b.
Proof.
  split; [|intros ->; apply key_compare_refl].
  intros H%String.compare_eq_iff.
  apply (f_equal list_ascii_of_string) in H.
  by rewrite !list_ascii_of_string_of_list_ascii in H.
Qed.

Lemma key_compare_flip (a b : std_string) :
  key_compare a b = Lt -> key_compare b a = Gt.
Proof.
  unfold key_compare; intros H.
  rewrite String.compare_antisym, H. done.
Qed.

Lemma string_eqb_true (a b : std_string) : string_eqb a b = true <-> a = b.
Proof. unfold string_eqb. apply bool_decide_eq_true. Qed.

Lemma string_eqb_refl (a : std_string) : string_eqb a a = true.
Proof. by apply string_eqb_true. Qed.

Lemma string_eqb_ne (a b : std_string) : a <> b -> string_eqb a b = false.
Proof. unfold string_eqb. apply bool_decide_eq_false. Qed.

Lemma map_find_assign {V} (key : std_string) (v : V) m :
  map_find key (map_assign key v m) = Some v.
Proof.
  induction m as [|[k x] m IH]; simpl.
  - by rewrite string_eqb_refl.
  - destruct (key_compare key k) eqn:E; simpl.
    + apply key_compare_eq in E as ->. by rewrite string_eqb_refl.
    + by rewrite string_eqb_refl.
    + destruct (string_eqb k key) eqn:E'; [|done].
      apply string_eqb_true in E' as ->.
      by rewrite key_compare_refl in E.
Qed.

Lemma map_find_assign_ne {V} (key k' : std_string) (v : V) m :
  k' <> key -> map_find k' (map_assign key v m) = map_find k' m.
Proof.
  intros Hne. induction m as [|[k x] m IH]; simpl.
  - by rewrite string_eqb_ne.
  - destruct (key_compare key k) eqn:E; simpl.
    + apply key_compare_eq in E as ->. by rewrite string_eqb_ne.
    + by rewrite (string_eqb_ne key k').
    + by rewrite IH.
Qed.

(** Assigning a key above every key present appends the entry. *)
Lemma map_assign_last {V} (key : std_string) (v : V) m :
  Forall (fun kv => key_compare kv.1 key = Lt) m ->
  map_assign key v m = m ++ [(key, v)].
Proof.
  induction 1 as [|[k x] m Hk _ IH]; simpl; [done|].
  simpl in Hk. by rewrite (key_compare_flip _ _ Hk), IH.
Qed.

Lemma string_compare_lt_trans (s1 s2 s3 : string) :
  String.compare s1 s2 = Lt -> String.compare s2 s3 = Lt ->
  String.compare s1 s3 = Lt.
Proof.
  revert s2 s3. induction s1 as [|c1 s1 IH]; intros [|c2 s2] [|c3 s3]; simpl;
    try done.
  unfold Ascii.compare.
  destruct (N.compare_spec (N_of_ascii c1) (N_of_ascii c2)) as [E12|L12|G12];
    destruct (N.compare_spec (N_of_ascii c2) (N_of_ascii c3)) as [E23|L23|G23];
    destruct (N.compare_spec (N_of_ascii c1) (N_of_ascii c3)) as [E13|L13|G13];
    try done; try lia.
  apply IH.
Qed.

Lemma key_compare_lt_trans (a b c : std_string) :
  key_compare a b = Lt -> key_compare b c = Lt -> key_compare a c = Lt.
Proof. apply string_compare_lt_trans. Qed.

Lemma Forall_map_assign {V} (P : std_string -> Prop) (key : std_string) (v : V) m :
  P key ->
  Forall (fun e => P e.1) m ->
  Forall (fun e => P e.1) (map_assign key v m).
Proof.
  intros Hkey. induction 1 as [|[k x] m Hk Hm IH]; simpl.
  - by repeat constructor.
  - destruct (key_compare key k); by repeat constructor.
Qed.

(** [m[key] = v] keeps the keys strictly ascending. *)
Lemma map_assign_ok {V} (key : std_string) (v : V) m :
  map_ok m -> map_ok (map_assign key v m).
Proof.
  unfold map_ok. induction 1 as [|[k x] m Hm IH Hall]; simpl.
  - repeat constructor.
  - destruct (key_compare key k) eqn:E.
    + apply key_compare_eq in E as ->. by constructor.
    + constructor; [by constructor|]. constructor; [done|].
      eapply Forall_impl; [exact Hall|]. intros [k' x'] Hk'.
      unfold key_lt in *; simpl in *. by eapply key_compare_lt_trans.
    + constructor; [done|].
      assert (Hgt : key_compare k key = Lt).
      { unfold key_compare in *. by rewrite String.compare_antisym, E. }
      by apply (Forall_map_assign (fun k' => key_compare k k' = Lt)).
Qed.

(** The children of an Object made by the pair-list constructor are in
    key order whatever the order of the pairs. *)
Lemma fold_map_assign_ok {V A} (f : A -> std_string * V) (elems : list A) m :
  map_ok m ->
  map_ok (fold_left (fun m e => map_assign (f e).1 (f e).2 m) elems m).
Proof.
  revert m. induction elems as [|e elems IH]; intros m Hm; simpl; [done|].
  by apply IH, map_assign_ok.
Qed.

(** ** The whitespace pass *)

Lemma take_succ_middle {A} (pre : list A) x rest :
  take (S (length pre)) (pre ++ x :: rest) = pre ++ [x].
Proof.
  induction pre as [|y pre IH]; simpl.
  - by rewrite take_0.
  - by rewrite IH.
Qed.

Lemma strip_from_kept (str pre : std_string) :
  flat_map (kept_at (pre ++ str)) (seq (length pre) (length str))
  = strip_from (Nat.odd (length (List.filter (Ascii.eqb dquote) pre))) str.
Proof.
  revert pre; induction str as [|ch rest IH]; intros pre; [done|].
  cbn [length seq flat_map strip_from].
  specialize (IH (pre ++ [ch])).
  rewrite <- app_assoc, length_app, Nat.add_1_r in IH; cbn [app] in IH.
  rewrite IH; clear IH.
  unfold kept_at at 1, in_string, quotes_upto.
  rewrite list_lookup_middle by done.
  rewrite take_succ_middle, !List.filter_app, !length_app.
  cbn [List.filter]. rewrite (Ascii.eqb_sym dquote ch).
  destruct (Ascii.eqb ch dquote); cbn [length].
  - rewrite Nat.add_1_r, Nat.odd_succ, <- Nat.negb_odd.
    by destruct (isspace ch && _).
  - rewrite Nat.add_0_r. by destruct (isspace ch && _).
Qed.

(** C7: the first pass of [parse] drops exactly the white space at
    positions outside string regions, a position being inside one when an
    odd number of quotes has been met up to it (every quote toggles,
    escaped or not); every other character is kept, in order. *)
Theorem str_clean_refines_spec (str : std_string) :
  str_clean str = strip_spec str.
Proof.
  unfold str_clean, strip_spec. symmetry. exact (strip_from_kept str []).
Qed.

(** ** Key navigation *)

Lemma lookup_make_shared_old (h : list Node) (n : Node) (p : ptr) :
  p < length h -> (make_shared n h).2 !! p = h !! p.
Proof. intros Hp. simpl. by rewrite lookup_app_l. Qed.

Lemma lookup_make_shared_new (h : list Node) (n : Node) :
  (make_shared n h).2 !! (make_shared n h).1 = Some n.
Proof. simpl. by rewrite list_lookup_middle. Qed.

(** C5: on a node that is not an Object, [view[key]] and [json[key]]
    throw WrongObjectType::NotObject. *)
Theorem index_key_not_object (h : list Node) (p : ptr) (n : Node) (key : std_string) :
  h !! p = Some n ->
  type n <> ValueType.Object ->
  View_index_key h (mkView p) key = Throw NotObject
  /\ Json_index_key h (mkJson p) key = Throw NotObject.
Proof.
  intros Hp Hty. unfold View_index_key, Json_index_key; simpl.
  rewrite Hp. by rewrite bool_decide_eq_false_2.
Qed.

(** C9: key navigation on an Object.  A key that is present yields a
    view of the existing child and the heap is left as it was.  A key
    that is absent adds one fresh Null cell and one entry for it under
    that key; the entries of all other keys and all other cells are as
    before. *)
Theorem index_key_frame (h : list Node) (p : ptr)
    (children : list (std_string * ptr)) (key : std_string) :
  h !! p = Some (ObjectNode children) ->
  match map_find key children with
  | Some it =>
      View_index_key h (mkView p) key = Ok (mkView it, h)
      /\ Json_index_key h (mkJson p) key = Ok (mkView it, h)
  | None =>
      exists (h' : list Node) (children' : list (std_string * ptr)),
        View_index_key h (mkView p) key = Ok (mkView (length h), h')
        /\ Json_index_key h (mkJson p) key = Ok (mkView (length h), h')
        /\ length h' = S (length h)
        /\ h' !! length h = Some NullNode
        /\ h' !! p = Some (ObjectNode children')
        /\ map_find key children' = Some (length h)
        /\ (forall k, k <> key -> map_find k children' = map_find k children)
        /\ (forall p', p' <> p -> p' < length h -> h' !! p' = h !! p')
  end.
Proof.
  intros Hp. pose proof (lookup_lt_Some _ _ _ Hp) as Hlt.
  unfold View_index_key, Json_index_key; simpl. rewrite Hp; simpl.
  destruct (map_find key children) as [it|] eqn:Hfind; [done|].
  unfold addOrEditChild. rewrite lookup_app_l, Hp by done.
  eexists _, _. split; [reflexivity|]. split; [reflexivity|].
  split; [by rewrite length_insert, length_app, Nat.add_1_r|].
  split.
  { rewrite list_lookup_insert_ne by lia. by rewrite list_lookup_middle. }
  split.
  { rewrite list_lookup_insert_eq; [done|]. rewrite length_app; lia. }
  split; [apply map_find_assign|].
  split; [intros k Hk; by apply map_find_assign_ne|].
  intros p' Hne Hp'. rewrite list_lookup_insert_ne by done.
  by rewrite lookup_app_l.
Qed.

(** C1 as the code has it: on a root that is an empty Object, [root[a]]
    adds a Null child under [a]; that child is not an Object, so the
    chained [[b]] throws NotObject and adds nothing, and the document
    then serializes as the object with the single entry [a : null]. *)
Theorem chained_key_navigation (h : list Node) (j : Json) (a b : std_string) :
  h !! root j = Some (ObjectNode []) ->
  exists h' : list Node,
    Json_index_key h j a = Ok (mkView (length h), h')
    /\ View_index_key h' (mkView (length h)) b = Throw NotObject
    /\ Json_dump h' j
       = Some ("{"%char :: dquote :: a ++ dquote :: ":"%char :: lit "null" ++ ["}"%char]).
Proof.
  intros Hp. pose proof (lookup_lt_Some _ _ _ Hp) as Hlt.
  unfold Json_index_key. rewrite Hp; simpl.
  unfold addOrEditChild. rewrite lookup_app_l, Hp by done. simpl.
  eexists. split; [reflexivity|].
  assert (Hnew : <[root j:=ObjectNode [(a, length h)]]> (h ++ [NullNode]) !! length h
                 = Some NullNode).
  { rewrite list_lookup_insert_ne by lia. by rewrite list_lookup_middle. }
  split.
  - unfold View_index_key; simpl. by rewrite Hnew.
  - unfold Json_dump. cbn [load].
    rewrite list_lookup_insert_eq by (rewrite length_app; lia).
    rewrite length_insert, length_app, Nat.add_1_r. cbn [load mapM].
    simpl. rewrite Hnew. simpl. by rewrite <- app_assoc.
Qed.

(** ** Construction from a C string *)

Lemma std_string_of_cstr_id (value : list ascii) :
  NUL ∉ value -> std_string_of_cstr value = value.
Proof.
  induction value as [|c value IH]; [done|].
  intros [Hc Hv]%not_elem_of_cons. simpl.
  destruct (Ascii.eqb_spec c NUL) as [->|_]; [done|]. by rewrite IH.
Qed.

(** C10: the constructor from a C string makes a document whose root is a fresh
    String leaf holding the characters of the C string as they are; the
    text is not parsed, whatever it contains, and no other cell changes. *)
Theorem Json_cstr_string_leaf (value : list ascii) (h : list Node) :
  NUL ∉ value ->
  exists (j : Json) (h' : list Node),
    Json_cstr value h = (j, h')
    /\ h' !! root j = Some (ValueNode_string value)
    /\ Json_as leaf_string h' j = Ok value
    /\ Json_dump h' j = Some (dquote :: value ++ [dquote])
    /\ (forall p, p < length h -> h' !! p = h !! p).
Proof.
  intros Hnul. unfold Json_cstr, Json_leaf; simpl.
  rewrite (std_string_of_cstr_id _ Hnul).
  eexists _, _. split; [reflexivity|]. simpl.
  assert (Hroot : (h ++ [ValueNode_string value]) !! length h
                  = Some (ValueNode_string value))
    by by rewrite list_lookup_middle.
  split; [done|]. split.
  - unfold Json_as; simpl. by rewrite Hroot.
  - split.
    + unfold Json_dump; simpl. by rewrite Hroot.
    + intros p Hp. by rewrite lookup_app_l.
Qed.

(** ** Typed access *)

Lemma value_of_no_throw (T : leaf_type) (n : Node) (e : exception) :
  value_of T n <> Throw e.
Proof. destruct T, n; discriminate. Qed.

(** C2, evaluated on the code: reading an Int node as a string, or
    assigning a string to it, goes through the unchecked cast and has no
    defined outcome; neither [as<T>()] nor the typed assignment ever
    throws, so WrongObjectType::NotLeaf<T>() is not what a mismatch
    gives. *)
Theorem leaf_access_unchecked :
  View_as leaf_string [ValueNode_int 5] (mkView 0) = Undefined
  /\ View_assign leaf_string [ValueNode_int 5] (mkView 0) (lit "x") = Undefined
  /\ (forall T h v e, View_as T h v <> Throw e)
  /\ (forall T h v value e, View_assign T h v value <> Throw e).
Proof.
  split; [done|]. split; [done|]. split.
  - intros T h v e. unfold View_as.
    destruct (h !! node v); [apply value_of_no_throw|discriminate].
  - intros T h v value e. unfold View_assign.
    destruct (h !! node v) as [n|]; [|discriminate].
    pose proof (value_of_no_throw T n e).
    destruct (value_of T n); simpl; congruence.
Qed.

(** ** Ownership under construction *)

Lemma fold_addChild (elems : list Json) (h : list Node) (p : ptr) (cs : list ptr) :
  h !! p = Some (ListNode cs) ->
  fold_left (fun h value => addChild h p (root value)) elems h
  = <[p := ListNode (cs ++ (root <$> elems))]> h.
Proof.
  revert h cs. induction elems as [|e elems IH]; intros h cs Hp; simpl.
  - rewrite app_nil_r. symmetry. by apply list_insert_id.
  - pose proof (lookup_lt_Some _ _ _ Hp) as Hlt.
    unfold addChild at 2. rewrite Hp.
    rewrite (IH _ (cs ++ [root e])) by by apply list_lookup_insert_eq.
    by rewrite list_insert_insert_eq, <- app_assoc.
Qed.

Lemma fold_addOrEditChild (elems : list (std_string * Json)) (h : list Node)
    (p : ptr) (cs : list (std_string * ptr)) :
  h !! p = Some (ObjectNode cs) ->
  fold_left (fun h kv => addOrEditChild h p kv.1 (root kv.2)) elems h
  = <[p := ObjectNode (fold_left (fun m kv => map_assign kv.1 (root kv.2) m) elems cs)]> h.
Proof.
  revert h cs. induction elems as [|e elems IH]; intros h cs Hp; simpl.
  - symmetry. by apply list_insert_id.
  - pose proof (lookup_lt_Some _ _ _ Hp) as Hlt.
    unfold addOrEditChild at 2. rewrite Hp.
    rewrite (IH _ (map_assign e.1 (root e.2) cs)) by by apply list_lookup_insert_eq.
    by rewrite list_insert_insert_eq.
Qed.

Lemma insert_last (h : list Node) (n n' : Node) :
  <[length h := n']> (h ++ [n]) = h ++ [n'].
Proof.
  rewrite insert_app_r_alt by done. by rewrite Nat.sub_diag.
Qed.

Lemma owners_snoc (h : list Node) (n : Node) (c : ptr) :
  owners (h ++ [n]) c
  = owners h c ++ replicate (count_occ Nat.eq_dec (children_of n) c) (length h).
Proof.
  unfold owners. rewrite imap_app, concat_app. simpl.
  by rewrite app_nil_r, Nat.add_0_r.
Qed.

Lemma Json_array_eq (elems : list Json) (h : list Node) :
  Json_array elems h = (mkJson (length h), h ++ [ListNode (root <$> elems)]).
Proof.
  unfold Json_array; simpl.
  rewrite (fold_addChild _ _ _ []) by by rewrite list_lookup_middle.
  by rewrite insert_last.
Qed.

Lemma Json_object_eq (elems : list (std_string * Json)) (h : list Node) :
  Json_object elems h
  = (mkJson (length h),
     h ++ [ObjectNode (fold_left (fun m kv => map_assign kv.1 (root kv.2) m) elems [])]).
Proof.
  unfold Json_object; simpl.
  rewrite (fold_addOrEditChild _ _ _ []) by by rewrite list_lookup_middle.
  by rewrite insert_last.
Qed.

(** The Object made by the pair-list constructor has its entries in key
    order, as [printable] asks of an Object. *)
Lemma Json_object_sorted (elems : list (std_string * Json)) (h : list Node) :
  exists children,
    (Json_object elems h).2 !! root (Json_object elems h).1 = Some (ObjectNode children)
    /\ map_ok children.
Proof.
  rewrite Json_object_eq. simpl. eexists. split.
  - by rewrite list_lookup_middle.
  - apply (fold_map_assign_ok (fun kv : std_string * Json => (kv.1, root kv.2))).
    constructor.
Qed.

(** C8 as the code has it: [Json::array] and the pair-list constructor
    allocate one new container whose slots hold the root pointers of the
    given documents themselves; nothing is copied and no existing cell
    changes, so every node keeps the parents it had and gains the new
    container as one more, once for each slot of it that holds the node.
    A document that already has a parent and is put into an array has at
    least two parents afterwards, so ownership is no longer exclusive. *)
Theorem construction_shares_roots (h : list Node) :
  (forall elems : list Json,
      Json_array elems h = (mkJson (length h), h ++ [ListNode (root <$> elems)])
      /\ (forall c, owners (Json_array elems h).2 c
                    = owners h c
                      ++ replicate (count_occ Nat.eq_dec (root <$> elems) c) (length h))
      /\ (forall e, e ∈ elems -> owners h (root e) <> [] ->
                    1 < length (owners (Json_array elems h).2 (root e))
                    /\ ~ exclusively_owned (Json_array elems h).2))
  /\ (forall elems : list (std_string * Json),
      let children := fold_left (fun m kv => map_assign kv.1 (root kv.2) m) elems [] in
      Json_object elems h = (mkJson (length h), h ++ [ObjectNode children])
      /\ forall c, owners (Json_object elems h).2 c
                   = owners h c
                     ++ replicate (count_occ Nat.eq_dec children.*2 c) (length h)).
Proof.
  split.
  - intros elems. split; [apply Json_array_eq|].
    assert (Hown : forall c, owners (Json_array elems h).2 c
                             = owners h c
                               ++ replicate (count_occ Nat.eq_dec (root <$> elems) c)
                                    (length h)).
    { intros c. rewrite Json_array_eq; simpl. apply owners_snoc. }
    split; [exact Hown|].
    intros e He Hparent.
    assert (Htwo : 1 < length (owners (Json_array elems h).2 (root e))).
    { rewrite Hown, length_app, length_replicate.
      assert (Hin : In (root e) (root <$> elems))
        by by apply list_elem_of_In, list_elem_of_fmap_2.
      apply (count_occ_In Nat.eq_dec) in Hin.
      destruct (owners h (root e)); [done|]. simpl. lia. }
    split; [exact Htwo|].
    intros Hex. specialize (Hex (root e)). lia.
  - intros elems children. split; [apply Json_object_eq|].
    intros c. rewrite Json_object_eq; simpl. apply owners_snoc.
Qed.

(** ** The scalar parser *)

Lemma string_at_inv (json : std_string) (index : nat) (ch : ascii) :
  string_at json index = Ok ch ->
  (json !! index = Some ch /\ index < length json)
  \/ (index = length json /\ ch = NUL).
Proof.
  unfold string_at. destruct (json !! index) as [c|] eqn:E.
  - intros [= ->]. left. split; [done|]. by eapply lookup_lt_Some.
  - destruct (Nat.eqb_spec index (length json)); [|done].
    intros [= <-]. by right.
Qed.

Lemma string_at_drop (json : std_string) (index : nat) :
  string_at json index
  = match drop index json with
    | ch :: _ => Ok ch
    | [] => if index =? length json then Ok NUL else Undefined
    end.
Proof.
  unfold string_at. destruct (json !! index) as [c|] eqn:E.
  - by rewrite (drop_S _ _ _ E).
  - apply lookup_ge_None in E. by rewrite drop_ge.
Qed.

Lemma substr_drop (json : std_string) (index n : nat) :
  index <= length json -> substr json index n = Ok (take n (drop index json)).
Proof.
  intros H. unfold substr. by destruct (Nat.ltb_spec (length json) index); [lia|].
Qed.

(** C4, the general case behind it: a leading character that starts
    neither literal, is no digit and no quote makes [parseValue] throw
    the pointer made by [new Malformed()]; no node is returned. *)
Lemma parseValue_unrecognized (json : std_string) (index : nat) (ch : ascii) :
  string_at json index = Ok ch ->
  take 4 (drop index json) <> lit "true" ->
  take 5 (drop index json) <> lit "false" ->
  is_number ch = false ->
  ch <> dquote ->
  parseValue json index = Throw Malformed_ptr.
Proof.
  intros Hat Ht Hf Hnum Hq. unfold parseValue.
  assert (index <= length json) by (apply string_at_inv in Hat; lia).
  rewrite !substr_drop by done. simpl.
  rewrite !string_eqb_ne by done. rewrite Hat; simpl. rewrite Hnum.
  by destruct (Ascii.eqb_spec ch dquote).
Qed.

(** C4, evaluated on the code: the text with the value missing after
    the key [a] reaches the last line of [parseValue], which throws a
    pointer to a Malformed and not a Malformed as [parseObject] does. *)
Theorem parse_missing_value :
  parse ("{"%char :: dquote :: "a"%char :: dquote :: lit ":}") = Throw Malformed_ptr
  /\ Malformed_ptr <> Malformed.
Proof. split; [reflexivity|discriminate]. Qed.

Lemma scan_number_run (rest : std_string) (fl : bool) :
  exists number tail,
    rest = number ++ tail
    /\ Forall digit_or_dot number
    /\ number_ends tail
    /\ scan_number rest fl = (number, fl || bool_decide ("."%char ∈ number)).
Proof.
  revert fl. induction rest as [|ch rest IH]; intros fl.
  - exists [], []. repeat split; [constructor|]. simpl. by rewrite orb_false_r.
  - simpl. destruct (Ascii.eqb_spec ch ".") as [->|Hdot]; simpl.
    + destruct (IH true) as (number & tail & -> & Hall & Hend & ->).
      exists ("."%char :: number), tail. repeat split; [|done|].
      * constructor; [by left|done].
      * rewrite (bool_decide_eq_true_2 (_ ∈ _ :: _)) by constructor.
        by rewrite orb_true_r.
    + destruct (is_number ch) eqn:Hnum.
      * destruct (IH fl) as (number & tail & -> & Hall & Hend & ->).
        exists (ch :: number), tail. repeat split; [|done|].
        -- constructor; [by right|done].
        -- do 2 f_equal. apply bool_decide_ext. rewrite elem_of_cons.
           split; [by right|]. by intros [?|?]; [congruence|].
      * exists [], (ch :: rest). repeat split; [constructor| |].
        -- simpl. intros [?|?]; congruence.
        -- simpl. by rewrite orb_false_r.
Qed.

(** ** Integers written and read back *)

Lemma digit_char_ok (d : Z) :
  (0 <= d < 10)%Z ->
  is_number (digit_char d) = true /\ digit_val (digit_char d) = d.
Proof.
  intros Hd.
  assert (d = 0 \/ d = 1 \/ d = 2 \/ d = 3 \/ d = 4 \/ d = 5 \/ d = 6
          \/ d = 7 \/ d = 8 \/ d = 9)%Z as Hcases by lia.
  repeat (destruct Hcases as [->|Hcases]; [done|]). by subst.
Qed.

(** What the digits are not: white space, signs, dots, quotes, brackets
    or the first letter of a literal. *)
Lemma is_number_other (c : ascii) :
  is_number c = true ->
  isspace c = false
  /\ c <> dquote /\ c <> "."%char /\ c <> "-"%char /\ c <> "+"%char
  /\ c <> "{"%char /\ c <> "["%char /\ c <> "}"%char /\ c <> "]"%char
  /\ c <> "t"%char /\ c <> "f"%char.
Proof.
  destruct c as [[] [] [] [] [] [] [] []]; intros H; try discriminate H;
    repeat split; discriminate.
Qed.

Lemma digits_of_S (fuel : nat) (n : Z) (acc : std_string) :
  digits_of (S fuel) n acc
  = if (n <? 10)%Z then digit_char (n mod 10) :: acc
    else digits_of fuel (n / 10) (digit_char (n mod 10) :: acc).
Proof. done. Qed.

Lemma digits_of_spec (fuel : nat) (n : Z) (acc : std_string) :
  (0 <= n < 10 ^ Z.of_nat (S fuel))%Z ->
  exists ds,
    digits_of (S fuel) n acc = ds ++ acc
    /\ ds <> []
    /\ Forall (fun c => is_number c = true) ds
    /\ forall a, atoi_digits a ds = (a * 10 ^ Z.of_nat (length ds) + n)%Z.
Proof.
  revert n acc. induction fuel as [|fuel IH]; intros n acc Hn.
  - change (10 ^ Z.of_nat 1)%Z with 10%Z in Hn.
    destruct (digit_char_ok n Hn) as [Hnum Hval].
    exists [digit_char (n mod 10)]. simpl.
    destruct (Z.ltb_spec n 10); [|lia].
    rewrite Z.mod_small by lia.
    repeat split; [done|by constructor|].
    intros a. rewrite Hnum, Hval. change (10 ^ 1)%Z with 10%Z. lia.
  - rewrite digits_of_S. destruct (Z.ltb_spec n 10) as [Hlt|Hge].
    + destruct (digit_char_ok n ltac:(lia)) as [Hnum Hval].
      exists [digit_char (n mod 10)]. rewrite Z.mod_small by lia.
      repeat split; [done|by constructor|].
      intros a. simpl. rewrite Hnum, Hval. change (10 ^ 1)%Z with 10%Z. lia.
    + assert (Hq : (0 <= n / 10 < 10 ^ Z.of_nat (S fuel))%Z).
      { split; [apply Z.div_pos; lia|].
        apply Z.div_lt_upper_bound; [lia|].
        rewrite (Nat2Z.inj_succ (S fuel)), Z.pow_succ_r in Hn by lia. lia. }
      destruct (IH (n / 10)%Z (digit_char (n mod 10) :: acc) Hq)
        as (ds & Heq & Hne & Hall & Hval).
      assert (Hd : (0 <= n mod 10 < 10)%Z) by (apply Z.mod_pos_bound; lia).
      destruct (digit_char_ok _ Hd) as [Hnum Hdv].
      exists (ds ++ [digit_char (n mod 10)]).
      rewrite Heq, <- app_assoc. repeat split; [| |].
      * by destruct ds.
      * apply Forall_app. split; [done|by constructor].
      * intros a.
        assert (Happ : forall s1 s2 b,
                   Forall (fun c => is_number c = true) s1 ->
                   atoi_digits b (s1 ++ s2) = atoi_digits (atoi_digits b s1) s2).
        { clear. induction s1 as [|c s1 IHs]; intros s2 b Hs; [done|].
          inversion Hs as [|? ? Hc Hs']; subst. simpl. rewrite Hc. by apply IHs. }
        rewrite Happ by done. rewrite Hval. simpl. rewrite Hnum, Hdv.
        rewrite length_app, Nat2Z.inj_add, Z.pow_add_r by lia.
        change (10 ^ Z.of_nat (length [digit_char (n mod 10)]))%Z with 10%Z.
        pose proof (Z.div_mod n 10 ltac:(lia)). lia.
Qed.

Lemma int_text_spec (z : Z) :
  (0 <= z <= INT_MAX)%Z ->
  exists c ds,
    int_text z = c :: ds
    /\ Forall (fun c => is_number c = true) (c :: ds)
    /\ atoi (int_text z) = Ok z.
Proof.
  intros Hz. unfold int_text. destruct (Z.ltb_spec z 0); [lia|].
  destruct (digits_of_spec 9 z []) as (ds & Heq & Hne & Hall & Hval).
  { unfold INT_MAX in Hz. change (10 ^ Z.of_nat 10)%Z with 10000000000%Z. lia. }
  rewrite Heq, app_nil_r. destruct ds as [|c ds]; [done|].
  exists c, ds. repeat split; [done|].
  unfold atoi. inversion Hall as [|? ? Hc _]; subst.
  destruct (is_number_other c Hc) as (Hsp & _ & _ & Hm & Hp & _).
  cbn [skip_space]. rewrite Hsp.
  assert (Hv : atoi_digits 0 (c :: ds) = z) by (rewrite Hval; lia).
  destruct (Ascii.eqb_spec c "-"); [done|].
  destruct (Ascii.eqb_spec c "+"); [done|].
  assert (E : match c :: ds with
              | "-"%char :: r => (- atoi_digits 0 r)%Z
              | "+"%char :: r => atoi_digits 0 r
              | r => atoi_digits 0 r
              end = z).
  { rewrite <- Hv. clear -Hm Hp.
    destruct c as [[] [] [] [] [] [] [] []]; done. }
  rewrite E. unfold INT_MIN, INT_MAX in *.
  destruct (Z.leb_spec (-2147483648) z); [|lia].
  destruct (Z.leb_spec z 2147483647); [done|lia].
Qed.

(** ** Numbers under the cursor *)

Lemma atoi_digits_nonneg (s : std_string) (acc : Z) :
  (0 <= acc)%Z -> (0 <= atoi_digits acc s)%Z.
Proof.
  revert acc. induction s as [|c s IH]; intros acc Hacc; [done|]. simpl.
  destruct (is_number c) eqn:Hc; [|done]. apply IH.
  assert (0 <= digit_val c)%Z; [|lia].
  clear -Hc. destruct c as [[] [] [] [] [] [] [] []]; try discriminate Hc; done.
Qed.

(** [std::atoi] on a run of digits: its decimal value when that fits an
    [int], nothing defined otherwise. *)
Lemma atoi_digit_run (c : ascii) (ds : std_string) :
  Forall (fun c => is_number c = true) (c :: ds) ->
  atoi (c :: ds)
  = if (atoi_digits 0 (c :: ds) <=? INT_MAX)%Z
    then Ok (atoi_digits 0 (c :: ds))
    else Undefined.
Proof.
  intros Hall. assert (Hc : is_number c = true) by by inversion Hall.
  destruct (is_number_other c Hc) as (Hsp & _ & _ & Hm & Hpl & _).
  unfold atoi. cbn [skip_space]. rewrite Hsp.
  assert (E : match c :: ds with
              | "-"%char :: r => (- atoi_digits 0 r)%Z
              | "+"%char :: r => atoi_digits 0 r
              | r => atoi_digits 0 r
              end = atoi_digits 0 (c :: ds)).
  { clear -Hm Hpl. destruct c as [[] [] [] [] [] [] [] []]; done. }
  rewrite E.
  pose proof (atoi_digits_nonneg (c :: ds) 0 ltac:(done)).
  destruct (Z.leb_spec INT_MIN (atoi_digits 0 (c :: ds))) as [_|Hlt];
    [|unfold INT_MIN in Hlt; lia].
  by destruct (Z.leb_spec (atoi_digits 0 (c :: ds)) INT_MAX).
Qed.

(** C6 as the code has it: on a digit, [parseValue] scans the longest
    run of digits and dots that starts under the cursor, however many
    dots it has.  A run that holds a dot is a Float and the cursor moves
    past the run.  A run without a dot is converted by [atoi]: up to
    INT_MAX it is the Int with the decimal value of the run and the
    cursor moves past the run; above INT_MAX the conversion has no
    defined result. *)
Theorem parseValue_number (json : std_string) (index : nat) (ch : ascii) :
  string_at json index = Ok ch ->
  is_number ch = true ->
  exists number tail,
    drop index json = number ++ tail
    /\ head number = Some ch
    /\ Forall digit_or_dot number
    /\ number_ends tail
    /\ parseValue json index
       = if bool_decide ("."%char ∈ number)
         then Ok (VFloat (atof number), index + length number)
         else if (atoi_digits 0 number <=? INT_MAX)%Z
              then Ok (VInt (atoi_digits 0 number), index + length number)
              else Undefined.
Proof.
  intros Hat Hnum.
  destruct (string_at_inv _ _ _ Hat) as [[Hlk Hlt]|[_ ->]]; [|done].
  destruct (scan_number_run (drop index json) false)
    as (number & tail & Hsplit & Hall & Hend & Hscan).
  exists number, tail.
  assert (Hhead : head number = Some ch).
  { rewrite (drop_S _ _ _ Hlk) in Hsplit. destruct number as [|c number].
    - simpl in Hsplit. subst tail. simpl in Hend. destruct Hend. by right.
    - by injection Hsplit as <- _. }
  repeat split; [done..|].
  unfold parseValue. rewrite Hscan, !substr_drop, Hat by lia.
  rewrite (drop_S _ _ _ Hlk). simpl.
  rewrite !string_eqb_ne; cycle 1.
  { intros [= ->]. done. }
  { intros [= ->]. done. }
  rewrite Hnum. destruct (bool_decide _) eqn:Hdot; [done|].
  apply bool_decide_eq_false in Hdot.
  destruct number as [|c number]; [done|].
  rewrite atoi_digit_run.
  - by destruct (_ <=? _)%Z.
  - apply Forall_forall. intros x Hx.
    destruct (proj1 (Forall_forall _ _) Hall x Hx) as [->|Hx']; [done|done].
Qed.

(** ** Serialization followed by parsing *)

Lemma parseRecursively_S (fuel : nat) (json : std_string) (index : nat) :
  parseRecursively (S fuel) json index
  = (ch ← string_at json index;
     if Ascii.eqb ch "{"%char then parseObject_loop fuel json (S index) []
     else if Ascii.eqb ch "["%char then parseList_loop fuel json (S index) []
     else parseValue json index).
Proof. done. Qed.

(** The dispatch of [parseRecursively] on the character under the cursor. *)
Lemma parseRecursively_dispatch (fuel : nat) (json : std_string) (index : nat) :
  parseRecursively (S fuel) json index
  = (ch ← string_at json index;
     if Ascii.eqb ch "{"%char then parseObject fuel json index
     else if Ascii.eqb ch "["%char then parseList fuel json index
     else parseValue json index).
Proof. done. Qed.

Lemma parseList_loop_S (fuel : nat) (json : std_string) (index : nat) node :
  parseList_loop (S fuel) json index node
  = (ch ← string_at json index;
     if Ascii.eqb ch "]"%char then Ok (VList node, S index)
     else
       '(child, index) ← parseRecursively fuel json index;
       ch ← string_at json index;
       let index := if negb (Ascii.eqb ch "]"%char) then S index else index in
       parseList_loop fuel json index (node ++ [child])).
Proof. done. Qed.

Lemma parseObject_loop_S (fuel : nat) (json : std_string) (index : nat) node :
  parseObject_loop (S fuel) json index node
  = (ch ← string_at json index;
     if Ascii.eqb ch "}"%char then Ok (VObject node, S index)
     else if negb (Ascii.eqb ch dquote) then Throw Malformed
     else
       let index := S index in
       key ← scan_string (drop index json);
       let index := index + length key in
       let index := S (S index) in
       '(value, index) ← parseRecursively fuel json index;
       ch ← string_at json index;
       let index := if negb (Ascii.eqb ch "}"%char) then S index else index in
       parseObject_loop fuel json index (map_assign key value node)).
Proof. done. Qed.

Lemma bind_Ok {A B} (a : A) (f : A -> result B) : (Ok a ≫= f) = f a.
Proof. done. Qed.

Lemma drop_cons_lt {A} (l : list A) (i : nat) (c : A) (r : list A) :
  drop i l = c :: r -> i < length l.
Proof.
  intros H. destruct (Nat.lt_ge_cases i (length l)) as [|Hge]; [done|].
  by rewrite drop_ge in H.
Qed.

Lemma drop_past {A} (l : list A) (i : nat) (a b : list A) :
  drop i l = a ++ b -> drop (i + length a) l = b.
Proof. intros H. by rewrite <- drop_drop, H, drop_app_length. Qed.

Lemma drop_next {A} (l : list A) (i : nat) (c : A) (r : list A) :
  drop i l = c :: r -> drop (S i) l = r.
Proof.
  intros H. apply (drop_past l i [c]) in H. simpl in H.
  by rewrite Nat.add_1_r in H.
Qed.

Lemma string_at_head (json : std_string) (index : nat) (c : ascii) (r : std_string) :
  drop index json = c :: r -> string_at json index = Ok c.
Proof. intros H. by rewrite string_at_drop, H. Qed.

Lemma scan_number_digits (ds tail : std_string) :
  Forall (fun c => is_number c = true) ds ->
  number_ends tail ->
  scan_number (ds ++ tail) false = (ds, false).
Proof.
  intros Hds Hend. induction Hds as [|c ds Hc _ IH]; simpl.
  - destruct tail as [|c tail]; [done|]. simpl in Hend. cbn [scan_number].
    destruct (Ascii.eqb_spec c ".") as [->|?]; [destruct Hend; by left|].
    simpl. destruct (is_number c) eqn:E; [destruct Hend; by right|done].
  - destruct (is_number_other c Hc) as (_ & _ & Hdot & _).
    cbn [scan_number]. destruct (Ascii.eqb_spec c "."); [done|].
    simpl. by rewrite Hc, IH.
Qed.

Lemma scan_string_quote_free (s tail : std_string) :
  quote_free s -> scan_string (s ++ dquote :: tail) = Ok s.
Proof.
  unfold quote_free. induction s as [|c s IH]; intros Hs; simpl; [done|].
  apply not_elem_of_cons in Hs as [Hc Hs].
  destruct (Ascii.eqb_spec c dquote); [congruence|]. by rewrite IH.
Qed.

Lemma parseValue_bool (json : std_string) (index : nat) (b : bool) (tail : std_string) :
  drop index json = dump (VBool b) ++ tail ->
  parseValue json index = Ok (VBool b, index + length (dump (VBool b))).
Proof.
  intros Hdrop. unfold parseValue.
  assert (index < length json)
    by (destruct b; simpl in Hdrop; by eapply drop_cons_lt).
  rewrite !substr_drop, Hdrop, !bind_Ok by lia.
  by destruct b; simpl.
Qed.

Lemma parseValue_int (json : std_string) (index : nat) (z : Z) (tail : std_string) :
  (0 <= z <= INT_MAX)%Z ->
  drop index json = dump (VInt z) ++ tail ->
  number_ends tail ->
  parseValue json index = Ok (VInt z, index + length (dump (VInt z))).
Proof.
  intros Hz Hdrop Hend. cbn [dump] in *.
  destruct (int_text_spec z Hz) as (c & ds & Htext & Hall & Hatoi).
  rewrite Htext in Hdrop.
  assert (Hc : is_number c = true) by by inversion Hall.
  destruct (is_number_other c Hc) as (_ & Hq & _ & _ & _ & _ & _ & _ & _ & Ht & Hf).
  unfold parseValue.
  rewrite !substr_drop by (apply Nat.lt_le_incl; by eapply drop_cons_lt).
  rewrite (string_at_head _ _ _ _ Hdrop), Hdrop, !bind_Ok.
  rewrite !string_eqb_ne; cycle 1.
  { intros [= ? _]. done. }
  { intros [= ? _]. done. }
  rewrite Hc, <- Htext, scan_number_digits by (by rewrite ?Htext).
  by rewrite Hatoi.
Qed.

Lemma parseValue_string (json : std_string) (index : nat) (s tail : std_string) :
  quote_free s ->
  drop index json = dump (VString s) ++ tail ->
  parseValue json index = Ok (VString s, index + length (dump (VString s))).
Proof.
  intros Hs Hdrop. cbn [dump] in *. cbn [app] in Hdrop.
  unfold parseValue.
  rewrite !substr_drop by (apply Nat.lt_le_incl; by eapply drop_cons_lt).
  rewrite (string_at_head _ _ _ _ Hdrop), (drop_next _ _ _ _ Hdrop), Hdrop, !bind_Ok.
  rewrite !string_eqb_ne by (by intros [= ? _]).
  change (is_number dquote) with false. rewrite Ascii.eqb_refl.
  rewrite <- app_assoc. cbn [app]. rewrite scan_string_quote_free, bind_Ok by done.
  do 2 f_equal. cbn [length]. rewrite length_app. simpl. lia.
Qed.

(** What the text of a printable tree starts with. *)
Lemma dump_head (v : Value) :
  printable v ->
  exists c r,
    dump v = c :: r
    /\ c <> "]"%char /\ c <> "}"%char
    /\ (c = "{"%char -> exists cs, v = VObject cs)
    /\ (c = "["%char -> exists cs, v = VList cs).
Proof.
  destruct 1 as [b|z Hz|s Hs|cs Hcs|cs Hok Hcs].
  - destruct b; eexists _, _; (split; [reflexivity|]); by repeat split.
  - destruct (int_text_spec z Hz) as (c & ds & Htext & Hall & _).
    assert (Hc : is_number c = true) by by inversion Hall.
    destruct (is_number_other c Hc) as (_ & _ & _ & _ & _ & ? & ? & ? & ? & _).
    exists c, ds. by repeat split.
  - eexists _, _; (split; [reflexivity|]); by repeat split.
  - eexists _, _; (split; [reflexivity|]); repeat split; [done..|]. by exists cs.
  - eexists _, _; (split; [reflexivity|]); repeat split; [done..| |done].
    by exists cs.
Qed.

(** A comma or a closing bracket ends a number. *)
Ltac number_ends_tac := simpl; intros [?|?]; discriminate.

Lemma parseList_loop_dump (json : std_string) (cs : list Value) :
  Forall (fun c => printable c /\ parses json c) cs ->
  forall fuel index node tail,
    drop index json = dump_items cs ++ "]"%char :: tail ->
    length (dump_items cs) + 1 < fuel ->
    parseList_loop fuel json index node
    = Ok (VList (node ++ cs), index + length (dump_items cs) + 1).
Proof.
  induction 1 as [|c cs [Hpr Hc] _ IH]; intros fuel index node tail Hdrop Hfuel;
    (destruct fuel as [|fuel]; [lia|]); rewrite parseList_loop_S.
  - simpl in Hdrop. rewrite (string_at_head _ _ _ _ Hdrop), bind_Ok. simpl.
    rewrite app_nil_r. do 2 f_equal. lia.
  - change (dump_items (c :: cs))
      with (dump c ++ (match cs with [] => [] | _ :: _ => [","%char] end)
            ++ dump_items cs) in *.
    destruct (dump_head c Hpr) as (ch & r & Hhead & Hch & _).
    rewrite <- !app_assoc in Hdrop.
    rewrite !length_app in Hfuel.
    assert (Hlen : 0 < length (dump c)) by (rewrite Hhead; simpl; lia).
    rewrite (string_at_head json index ch
               (r ++ (match cs with [] => [] | _ :: _ => [","%char] end)
                ++ dump_items cs ++ "]"%char :: tail))
      by (by rewrite Hdrop, Hhead).
    rewrite bind_Ok. destruct (Ascii.eqb_spec ch "]"); [done|].
    rewrite (Hc fuel index _ Hdrop); [|destruct cs; number_ends_tac|lia].
    rewrite bind_Ok. cbv beta iota.
    apply drop_past in Hdrop.
    destruct cs as [|c' cs].
    + simpl in Hdrop. rewrite (string_at_head _ _ _ _ Hdrop), bind_Ok.
      simpl negb. cbv iota zeta.
      rewrite (IH fuel _ _ tail Hdrop) by (simpl; lia).
      rewrite <- app_assoc. do 2 f_equal. simpl. rewrite app_nil_r. lia.
    + cbn [app] in Hdrop.
      rewrite (string_at_head _ _ _ _ Hdrop), bind_Ok.
      simpl negb. cbv iota zeta.
      apply drop_next in Hdrop.
      rewrite (IH fuel _ _ tail Hdrop) by (simpl in *; lia).
      rewrite <- app_assoc. do 2 f_equal.
      rewrite !length_app. simpl. lia.
Qed.

Lemma sorted_prefix_lt {V} (acc : list (std_string * V)) kv rest :
  map_ok (acc ++ kv :: rest) ->
  Forall (fun e => key_compare e.1 kv.1 = Lt) acc.
Proof.
  unfold map_ok. induction acc as [|e acc IH]; intros H; [constructor|].
  inversion H as [|? ? Hs Hall]; subst. constructor; [|by apply IH].
  apply Forall_app in Hall as [_ Hall]. by inversion Hall.
Qed.

Lemma parseObject_loop_dump (json : std_string) (cs : list (std_string * Value)) :
  Forall (fun kv => quote_free kv.1 /\ printable kv.2 /\ parses json kv.2) cs ->
  forall fuel index node tail,
    map_ok (node ++ cs) ->
    drop index json = dump_entries cs ++ "}"%char :: tail ->
    length (dump_entries cs) + 1 < fuel ->
    parseObject_loop fuel json index node
    = Ok (VObject (node ++ cs), index + length (dump_entries cs) + 1).
Proof.
  induction 1 as [|[k v] cs (Hk & Hpr & Hv) _ IH];
    intros fuel index node tail Hok Hdrop Hfuel;
    (destruct fuel as [|fuel]; [lia|]); rewrite parseObject_loop_S.
  - simpl in Hdrop. rewrite (string_at_head _ _ _ _ Hdrop), bind_Ok. simpl.
    rewrite app_nil_r. do 2 f_equal. lia.
  - simpl in Hk, Hpr, Hv.
    change (dump_entries ((k, v) :: cs))
      with (dquote :: k ++ dquote :: ":"%char :: dump v
            ++ (match cs with [] => [] | _ :: _ => [","%char] end)
            ++ dump_entries cs) in *.
    cbn [app length] in Hdrop, Hfuel.
    rewrite <- !app_assoc in Hdrop. cbn [app] in Hdrop.
    rewrite <- !app_assoc in Hdrop.
    rewrite !length_app in Hfuel. cbn [length] in Hfuel.
    rewrite !length_app in Hfuel.
    rewrite (string_at_head _ _ _ _ Hdrop), bind_Ok.
    change (Ascii.eqb dquote "}") with false.
    rewrite Ascii.eqb_refl. cbv beta iota zeta. simpl negb. cbv iota.
    pose proof (drop_next _ _ _ _ Hdrop) as Hkey.
    rewrite Hkey, scan_string_quote_free, bind_Ok by done.
    apply drop_past in Hkey.
    do 2 apply drop_next in Hkey.
    rewrite (Hv fuel _ _ Hkey); [|destruct cs; number_ends_tac|lia].
    rewrite bind_Ok. cbv beta iota.
    apply drop_past in Hkey. cbn [Nat.add] in Hkey |- *.
    rewrite (map_assign_last k v node) by exact (sorted_prefix_lt _ _ _ Hok).
    assert (Hok' : map_ok ((node ++ [(k, v)]) ++ cs)) by by rewrite <- app_assoc.
    destruct cs as [|c' cs].
    + simpl in Hkey. rewrite (string_at_head _ _ _ _ Hkey), bind_Ok.
      simpl negb. cbv iota zeta.
      rewrite (IH fuel _ _ tail Hok' Hkey) by (simpl; lia).
      rewrite <- app_assoc. do 2 f_equal.
      cbn [length]. rewrite !length_app. cbn [length].
      rewrite !length_app. simpl. lia.
    + cbn [app] in Hkey.
      rewrite (string_at_head _ _ _ _ Hkey), bind_Ok.
      simpl negb. cbv iota zeta.
      apply drop_next in Hkey.
      rewrite (IH fuel _ _ tail Hok' Hkey) by (simpl in *; lia).
      rewrite <- app_assoc. do 2 f_equal.
      cbn [length]. rewrite !length_app. cbn [length].
      rewrite !length_app. simpl. lia.
Qed.

Lemma parse_dump (json : std_string) (v : Value) : printable v -> parses json v.
Proof.
  induction v as [|b|z|f|s|cs IH|cs IH] using Value_ind';
    intros Hp; inversion Hp as [?|? Hz|? Hs|? Hcs|? Hok Hcs]; subst;
    intros fuel index tail Hdrop Hend Hfuel;
    (destruct fuel as [|fuel]; [lia|]); rewrite parseRecursively_S.
  - destruct (dump_head _ Hp) as (c & r & Hhead & _ & _ & Hobj & Hlist).
    rewrite (string_at_head json index c (r ++ tail)) by by rewrite Hdrop, Hhead.
    rewrite bind_Ok.
    destruct (Ascii.eqb_spec c "{") as [E|_]; [by destruct (Hobj E)|].
    destruct (Ascii.eqb_spec c "[") as [E|_]; [by destruct (Hlist E)|].
    by eapply parseValue_bool.
  - destruct (dump_head _ Hp) as (c & r & Hhead & _ & _ & Hobj & Hlist).
    rewrite (string_at_head json index c (r ++ tail)) by by rewrite Hdrop, Hhead.
    rewrite bind_Ok.
    destruct (Ascii.eqb_spec c "{") as [E|_]; [by destruct (Hobj E)|].
    destruct (Ascii.eqb_spec c "[") as [E|_]; [by destruct (Hlist E)|].
    by eapply parseValue_int.
  - destruct (dump_head _ Hp) as (c & r & Hhead & _ & _ & Hobj & Hlist).
    rewrite (string_at_head json index c (r ++ tail)) by by rewrite Hdrop, Hhead.
    rewrite bind_Ok.
    destruct (Ascii.eqb_spec c "{") as [E|_]; [by destruct (Hobj E)|].
    destruct (Ascii.eqb_spec c "[") as [E|_]; [by destruct (Hlist E)|].
    by eapply parseValue_string.
  - change (dump (VList cs)) with ("["%char :: dump_items cs ++ ["]"%char]) in *.
    cbn [app length] in Hdrop, Hfuel.
    rewrite <- app_assoc in Hdrop. cbn [app] in Hdrop.
    rewrite length_app in Hfuel. cbn [length] in Hfuel.
    rewrite (string_at_head _ _ _ _ Hdrop), bind_Ok.
    change (Ascii.eqb "[" "{") with false. rewrite Ascii.eqb_refl. cbv iota.
    apply drop_next in Hdrop.
    rewrite (parseList_loop_dump json cs) with (tail := tail); [|..|done|lia].
    + do 2 f_equal. cbn [length]. rewrite length_app. simpl. lia.
    + apply Forall_forall. intros c Hc. split.
      * by eapply Forall_forall in Hcs.
      * eapply Forall_forall in IH; [|done]. apply IH.
        by eapply Forall_forall in Hcs.
  - change (dump (VObject cs)) with ("{"%char :: dump_entries cs ++ ["}"%char]) in *.
    cbn [app length] in Hdrop, Hfuel.
    rewrite <- app_assoc in Hdrop. cbn [app] in Hdrop.
    rewrite length_app in Hfuel. cbn [length] in Hfuel.
    rewrite (string_at_head _ _ _ _ Hdrop), bind_Ok.
    rewrite Ascii.eqb_refl. cbv iota.
    apply drop_next in Hdrop.
    rewrite (parseObject_loop_dump json cs) with (tail := tail); [|..|done|done|lia].
    + do 2 f_equal. cbn [length]. rewrite length_app. simpl. lia.
    + apply Forall_forall. intros kv Hkv.
      pose proof (proj1 (Forall_forall _ _) Hcs kv Hkv) as [Hq Hpr].
      pose proof (proj1 (Forall_forall _ _) IH kv Hkv) as Hkvp.
      repeat split; [done..|]. by apply Hkvp.
Qed.

(** The whitespace pass leaves the text of a printable tree alone. *)
Lemma strip_digits (ds rest : std_string) :
  Forall (fun c => is_number c = true) ds ->
  strip_from false (ds ++ rest) = ds ++ strip_from false rest.
Proof.
  induction 1 as [|c ds Hc _ IH]; [done|].
  destruct (is_number_other c Hc) as (Hsp & Hq & _).
  cbn [app strip_from]. destruct (Ascii.eqb_spec c dquote); [done|].
  by rewrite Hsp, IH.
Qed.

Lemma strip_inside (s rest : std_string) :
  quote_free s ->
  strip_from true (s ++ dquote :: rest) = s ++ dquote :: strip_from false rest.
Proof.
  unfold quote_free. induction s as [|c s IH]; intros Hs.
  - done.
  - apply not_elem_of_cons in Hs as [Hc Hs].
    cbn [app strip_from]. destruct (Ascii.eqb_spec c dquote); [done|].
    by rewrite andb_false_r, IH.
Qed.

Lemma strip_quoted (s rest : std_string) :
  quote_free s ->
  strip_from false (dquote :: s ++ dquote :: rest)
  = dquote :: s ++ dquote :: strip_from false rest.
Proof.
  intros Hs.
  change (strip_from false (dquote :: ?x)) with (dquote :: strip_from true x).
  by rewrite strip_inside.
Qed.

Lemma strip_char (c : ascii) (x : std_string) :
  isspace c = false -> c <> dquote ->
  strip_from false (c :: x) = c :: strip_from false x.
Proof.
  intros Hsp Hq. cbn [strip_from].
  destruct (Ascii.eqb_spec c dquote); [done|]. by rewrite Hsp.
Qed.

Lemma strip_dump (v : Value) :
  printable v ->
  forall rest, strip_from false (dump v ++ rest) = dump v ++ strip_from false rest.
Proof.
  induction v as [|b|z|f|s|cs IH|cs IH] using Value_ind';
    intros Hp; inversion Hp as [?|? Hz|? Hs|? Hcs|? Hok Hcs]; subst; intros rest.
  - by destruct b.
  - destruct (int_text_spec z Hz) as (c & ds & Htext & Hall & _).
    cbn [dump]. rewrite <- Htext in Hall. by apply strip_digits.
  - change (dump (VString s)) with (dquote :: s ++ [dquote]).
    rewrite <- !app_comm_cons, <- !app_assoc. cbn [app].
    by rewrite strip_quoted.
  - change (dump (VList cs)) with ("["%char :: dump_items cs ++ ["]"%char]).
    rewrite <- !app_comm_cons, <- !app_assoc. cbn [app].
    rewrite strip_char by done. f_equal.
    assert (Hitems : forall tail,
               strip_from false (dump_items cs ++ tail)
               = dump_items cs ++ strip_from false tail).
    { clear Hp. induction cs as [|c cs IHcs]; intros tail; [done|].
      inversion IH as [|? ? IHc IH']; inversion Hcs as [|? ? Hc Hcs']; subst.
      change (dump_items (c :: cs))
        with (dump c ++ (match cs with [] => [] | _ :: _ => [","%char] end)
              ++ dump_items cs).
      rewrite <- !app_assoc, (IHc Hc). f_equal.
      destruct cs as [|c' cs]; [done|].
      cbn [app]. rewrite strip_char by done. f_equal.
      by apply IHcs. }
    rewrite Hitems. by rewrite strip_char.
  - change (dump (VObject cs)) with ("{"%char :: dump_entries cs ++ ["}"%char]).
    rewrite <- !app_comm_cons, <- !app_assoc. cbn [app].
    rewrite strip_char by done. f_equal.
    assert (Hitems : forall tail,
               strip_from false (dump_entries cs ++ tail)
               = dump_entries cs ++ strip_from false tail).
    { clear Hp Hok. induction cs as [|[k c] cs IHcs]; intros tail; [done|].
      inversion IH as [|? ? IHc IH']; inversion Hcs as [|? ? [Hk Hc] Hcs']; subst.
      simpl in IHc, Hk, Hc.
      change (dump_entries ((k, c) :: cs))
        with (dquote :: k ++ dquote :: ":"%char :: dump c
              ++ (match cs with [] => [] | _ :: _ => [","%char] end)
              ++ dump_entries cs).
      rewrite <- !app_comm_cons, <- !app_assoc. cbn [app].
      rewrite <- !app_assoc.
      rewrite strip_quoted, strip_char, (IHc Hc) by done.
      apply (f_equal (fun x => dquote :: k ++ dquote :: ":"%char :: dump c ++ x)).
      destruct cs as [|c' cs]; [done|].
      cbn [app]. rewrite strip_char by done. f_equal.
      by apply IHcs. }
    rewrite Hitems. by rewrite strip_char.
Qed.

Lemma parse_dump_printable (v : Value) : printable v -> parse (dump v) = Ok v.
Proof.
  intros Hp. unfold parse.
  pose proof (strip_dump v Hp []) as Hstrip. rewrite !app_nil_r in Hstrip.
  rewrite Hstrip.
  rewrite (parse_dump (dump v) v Hp _ 0 []); [done| |done|lia].
  by rewrite app_nil_r.
Qed.

(** C3 as the code has it: a document whose tree has only booleans,
    integers from 0 to INT_MAX and quote-free strings at its leaves, and
    quote-free keys in its Objects, serializes to a text that [parse]
    reads back as the same tree; Null, negative Int and Float leaves and
    texts holding a quote are left out. *)
Theorem dump_parse_roundtrip (h : list Node) (j : Json) (v : Value) :
  load (S (length h)) h (root j) = Some v ->
  printable v ->
  exists text, Json_dump h j = Some text /\ parse text = Ok v.
Proof.
  intros Hload Hp. exists (dump v). split.
  - unfold Json_dump. by rewrite Hload.
  - by apply parse_dump_printable.
Qed.

(** ** The fuel of [parse] is enough *)

Lemma string_at_cases (json : std_string) (index : nat) :
  (exists ch, string_at json index = Ok ch /\ index <= length json
              /\ (ch <> NUL -> index < length json))
  \/ (string_at json index = Undefined /\ length json < index).
Proof.
  unfold string_at. destruct (json !! index) as [c|] eqn:E.
  - left. exists c. apply lookup_lt_Some in E. repeat split; lia.
  - apply lookup_ge_None in E. destruct (Nat.eqb_spec index (length json)).
    + left. exists NUL. repeat split; [lia|done].
    + right. split; [done|lia].
Qed.

Lemma scan_string_inv (rest s : std_string) :
  scan_string rest = Ok s -> exists tail, rest = s ++ dquote :: tail.
Proof.
  revert s. induction rest as [|c rest IH]; intros s; simpl; [done|].
  destruct (Ascii.eqb_spec c dquote) as [->|_].
  - intros [= <-]. by exists rest.
  - destruct (scan_string rest) as [s'| | |] eqn:E; try done.
    intros [= <-]. destruct (IH s' eq_refl) as [tail ->]. by exists tail.
Qed.

Lemma scan_string_no_fuel (rest : std_string) : scan_string rest <> OutOfFuel.
Proof.
  induction rest as [|c rest IH]; simpl; [done|].
  destruct (Ascii.eqb c dquote); [done|].
  by destruct (scan_string rest).
Qed.

Lemma length_drop_app {A} (l : list A) (i : nat) (a b : list A) :
  drop i l = a ++ b -> i <= length l -> i + length a + length b = length l.
Proof.
  intros H Hi. apply (f_equal length) in H.
  rewrite length_drop, length_app in H. lia.
Qed.

(** A node returned by [parseValue] was read from inside the buffer, and
    the cursor has moved. *)
Lemma parseValue_bounds (json : std_string) (index : nat) v i' :
  parseValue json index = Ok (v, i') -> index < i' <= length json.
Proof.
  unfold parseValue, substr.
  destruct (Nat.ltb_spec (length json) index) as [|Hle]; [done|].
  rewrite !bind_Ok.
  assert (Htake : forall n s, take n (drop index json) = s ->
                         index + length s <= length json).
  { intros n s <-. rewrite length_take, length_drop. lia. }
  destruct (string_eqb _ (lit "true")) eqn:Et.
  { apply string_eqb_true, Htake in Et. simpl in Et. intros [= <- <-]. lia. }
  destruct (string_eqb _ (lit "false")) eqn:Ef.
  { apply string_eqb_true, Htake in Ef. simpl in Ef. intros [= <- <-]. lia. }
  destruct (string_at_cases json index) as [(ch & Hat & _ & Hlt)|[_ ?]]; [|lia].
  rewrite Hat, bind_Ok. destruct (is_number ch) eqn:Hnum.
  - destruct (scan_number_run (drop index json) false)
      as (number & tail & Hsplit & _ & _ & Hscan).
    rewrite Hscan.
    assert (Hne : 0 < length number).
    { assert (Hlk : index < length json) by (apply Hlt; by intros ->).
      destruct (lookup_lt_is_Some_2 json index Hlk) as [c Hc].
      rewrite (drop_S _ _ _ Hc) in Hsplit, Hscan.
      assert (c = ch) as ->
        by (unfold string_at in Hat; rewrite Hc in Hat; congruence).
      cbn [scan_number] in Hscan. rewrite Hnum, orb_true_r in Hscan.
      destruct (scan_number _ _). injection Hscan as <- _. simpl; lia. }
    pose proof (length_drop_app _ _ _ _ Hsplit Hle).
    destruct (false || _).
    + intros [= <- <-]. lia.
    + destruct (atoi number); try done. rewrite bind_Ok. intros [= <- <-]. lia.
  - destruct (Ascii.eqb ch dquote); [|done].
    destruct (scan_string (drop (S index) json)) as [s| | |] eqn:Es; try done.
    rewrite bind_Ok. intros [= <- <-].
    destruct (scan_string_inv _ _ Es) as [tail Htail].
    assert (S index <= length json).
    { destruct (Nat.le_gt_cases (S index) (length json)); [done|].
      rewrite drop_ge in Htail by lia. by destruct s. }
    pose proof (length_drop_app _ _ _ _ Htail ltac:(done)) as Hlen.
    simpl in Hlen. lia.
Qed.

Lemma parseValue_no_fuel (json : std_string) (index : nat) :
  parseValue json index <> OutOfFuel.
Proof.
  unfold parseValue, substr.
  destruct (length json <? index); [done|]. rewrite !bind_Ok.
  destruct (string_eqb _ _); [done|]. destruct (string_eqb _ _); [done|].
  destruct (string_at_cases json index) as [(ch & -> & _)|[-> _]]; [|done].
  rewrite bind_Ok. destruct (is_number ch).
  - destruct (scan_number _ _) as [number []]; [done|].
    unfold atoi. by destruct (_ && _).
  - destruct (Ascii.eqb ch dquote); [|done].
    pose proof (scan_string_no_fuel (drop (S index) json)).
    by destruct (scan_string _).
Qed.

(** With two units of fuel for every character from the cursor to the end
    of the buffer, the descent and both loops finish. *)
Lemma parse_fuel_steps (fuel : nat) :
  (forall json index,
      index <= length json + 1 ->
      2 * length json + 3 <= fuel + 2 * index ->
      finishes index json (parseRecursively fuel json index))
  /\ (forall json index node,
      index <= length json + 1 ->
      2 * length json + 4 <= fuel + 2 * index ->
      finishes index json (parseObject_loop fuel json index node))
  /\ (forall json index node,
      index <= length json + 1 ->
      2 * length json + 4 <= fuel + 2 * index ->
      finishes index json (parseList_loop fuel json index node)).
Proof.
  induction fuel as [|fuel (IHR & IHO & IHL)].
  { repeat split; intros; lia. }
  split; [|split].
  - intros json index Hidx Hfuel. rewrite parseRecursively_S.
    destruct (string_at_cases json index) as [(ch & Hat & Hle & Hlt)|[-> _]];
      [|by split].
    rewrite Hat, bind_Ok.
    destruct (Ascii.eqb_spec ch "{") as [->|_].
    { specialize (Hlt ltac:(done)).
      destruct (IHO json (S index) [] ltac:(lia) ltac:(lia)) as [Hnf Hb].
      split; [done|]. intros v i' E. specialize (Hb v i' E). lia. }
    destruct (Ascii.eqb_spec ch "[") as [->|_].
    { specialize (Hlt ltac:(done)).
      destruct (IHL json (S index) [] ltac:(lia) ltac:(lia)) as [Hnf Hb].
      split; [done|]. intros v i' E. specialize (Hb v i' E). lia. }
    split; [apply parseValue_no_fuel|apply parseValue_bounds].
  - intros json index node Hidx Hfuel. rewrite parseObject_loop_S.
    destruct (string_at_cases json index) as [(ch & Hat & Hle & Hlt)|[-> _]];
      [|by split].
    rewrite Hat, bind_Ok.
    destruct (Ascii.eqb_spec ch "}") as [->|_].
    { specialize (Hlt ltac:(done)). split; [done|]. intros v i' [= <- <-]. lia. }
    destruct (Ascii.eqb_spec ch dquote) as [->|_]; [|by split].
    specialize (Hlt ltac:(done)). simpl negb. cbv iota zeta.
    pose proof (scan_string_no_fuel (drop (S index) json)) as Hsf.
    destruct (scan_string (drop (S index) json)) as [key| | |] eqn:Es;
      [|by split..].
    rewrite bind_Ok.
    destruct (scan_string_inv _ _ Es) as [tail Htail].
    pose proof (length_drop_app _ _ _ _ Htail ltac:(lia)) as Hlen.
    simpl in Hlen.
    destruct (IHR json (S (S (S index + length key))) ltac:(lia) ltac:(lia))
      as [Hnf Hb].
    destruct (parseRecursively fuel json (S (S (S index + length key))))
      as [[value i2]| | |] eqn:Er; [|by split..].
    specialize (Hb value i2 eq_refl). rewrite bind_Ok. cbv beta iota.
    destruct (string_at_cases json i2) as [(ch2 & Hat2 & _)|[_ ?]]; [|lia].
    rewrite Hat2, bind_Ok.
    destruct (IHO json (if negb (Ascii.eqb ch2 "}") then S i2 else i2)
                (map_assign key value node)) as [Hnf' Hb'].
    { destruct (negb _); lia. }
    { destruct (negb _); lia. }
    split; [done|]. intros v i' E. specialize (Hb' v i' E).
    destruct (negb _); lia.
  - intros json index node Hidx Hfuel. rewrite parseList_loop_S.
    destruct (string_at_cases json index) as [(ch & Hat & Hle & Hlt)|[-> _]];
      [|by split].
    rewrite Hat, bind_Ok.
    destruct (Ascii.eqb_spec ch "]") as [->|_].
    { specialize (Hlt ltac:(done)). split; [done|]. intros v i' [= <- <-]. lia. }
    destruct (IHR json index ltac:(lia) ltac:(lia)) as [Hnf Hb].
    destruct (parseRecursively fuel json index) as [[child i2]| | |] eqn:Er;
      [|by split..].
    specialize (Hb child i2 eq_refl). rewrite bind_Ok. cbv beta iota.
    destruct (string_at_cases json i2) as [(ch2 & Hat2 & _)|[_ ?]]; [|lia].
    rewrite Hat2, bind_Ok.
    destruct (IHL json (if negb (Ascii.eqb ch2 "]") then S i2 else i2)
                (node ++ [child])) as [Hnf' Hb'].
    { destruct (negb _); lia. }
    { destruct (negb _); lia. }
    split; [done|]. intros v i' E. specialize (Hb' v i' E).
    destruct (negb _); lia.
Qed.

(** [parse] never stops for lack of fuel: it returns a tree, throws, or
    runs into an access that is undefined. *)
Lemma parse_fuel_suffices (str : std_string) : parse str <> OutOfFuel.
Proof.
  unfold parse.
  destruct (proj1 (parse_fuel_steps (2 * length (strip_from false str) + 3))
              (strip_from false str) 0 ltac:(lia) ltac:(lia)) as [Hnf _].
  by destruct (parseRecursively _ _ _).
Qed.


(** * Further properties of the code *)

(** ** Index navigation *)

(** X1: on a node that is not a List, [view[idx]] and [json[idx]] throw
    WrongObjectType::NotList, whatever the index. *)
Theorem index_idx_not_list (h : list Node) (p : ptr) (n : Node) (idx : nat) :
  h !! p = Some n ->
  type n <> ValueType.List ->
  View_index_idx h (mkView p) idx = Throw NotList
  /\ Json_index_idx h (mkJson p) idx = Throw NotList.
Proof.
  intros Hp Hty. unfold View_index_idx, Json_index_idx; simpl.
  rewrite Hp. by rewrite bool_decide_eq_false_2.
Qed.

(** X2: indexing the document made by [Json::array] at a position inside
    the list gives a view bound to the root node of the document given at
    that position, the node itself and not a copy; at a position beyond
    the list the vector is read out of bounds. *)
Theorem array_then_index (elems : list Json) (h : list Node) (idx : nat) :
  Json_index_idx (Json_array elems h).2 (Json_array elems h).1 idx
  = match elems !! idx with
    | Some e => Ok (mkView (root e))
    | None => Undefined
    end
  /\ View_index_idx (Json_array elems h).2 (mkView (root (Json_array elems h).1)) idx
     = match elems !! idx with
       | Some e => Ok (mkView (root e))
       | None => Undefined
       end.
Proof.
  rewrite Json_array_eq. unfold Json_index_idx, View_index_idx; simpl.
  rewrite list_lookup_middle by done. simpl.
  rewrite list_lookup_fmap. by destruct (elems !! idx).
Qed.

(** ** Typed access *)

Lemma value_of_ValueNode (T : leaf_type) (x : leaf T) : value_of T (ValueNode T x) = Ok x.
Proof. by destruct T. Qed.

Lemma type_ValueNode (T : leaf_type) (x : leaf T) : type (ValueNode T x) = ValueType_get T.
Proof. by destruct T. Qed.

(** X3: a typed assignment to a view bound to a leaf of that type
    succeeds and stores the value in the node itself: every view bound to
    the same node then reads the new value, the node keeps its kind, and
    no other cell changes. *)
Theorem assign_then_read (T : leaf_type) (h : list Node) (v : View) (old x : leaf T) :
  h !! node v = Some (ValueNode T old) ->
  exists h' : list Node,
    View_assign T h v x = Ok (v, h')
    /\ (forall v', node v' = node v -> View_as T h' v' = Ok x)
    /\ h' !! node v = Some (ValueNode T x)
    /\ type <$> h' !! node v = type <$> h !! node v
    /\ length h' = length h
    /\ (forall p, p <> node v -> h' !! p = h !! p).
Proof.
  intros Hv. pose proof (lookup_lt_Some _ _ _ Hv) as Hlt.
  exists (<[node v := ValueNode T x]> h).
  assert (Hnew : <[node v := ValueNode T x]> h !! node v = Some (ValueNode T x))
    by by apply list_lookup_insert_eq.
  split.
  { unfold View_assign. by rewrite Hv, value_of_ValueNode. }
  split.
  { intros v' Hv'. unfold View_as. by rewrite Hv', Hnew, value_of_ValueNode. }
  split; [done|]. split.
  { rewrite Hnew, Hv. simpl. by rewrite !type_ValueNode. }
  split; [apply length_insert|].
  intros p Hp. by apply list_lookup_insert_ne.
Qed.

(** X4: what a leaf constructor stores is what the typed read of that
    type returns, and the root has the kind of the type; a read at any
    other leaf type goes through the unchecked cast. *)
Theorem leaf_then_as (T : leaf_type) (x : leaf T) (h : list Node) :
  Json_as T (Json_leaf T x h).2 (Json_leaf T x h).1 = Ok x
  /\ type <$> (Json_leaf T x h).2 !! root (Json_leaf T x h).1 = Some (ValueType_get T)
  /\ (forall T', T' <> T -> Json_as T' (Json_leaf T x h).2 (Json_leaf T x h).1 = Undefined).
Proof.
  unfold Json_leaf, Json_as; simpl. rewrite list_lookup_middle by done.
  split; [apply value_of_ValueNode|]. split; [simpl; by rewrite type_ValueNode|].
  intros T' Hne. by destruct T, T'.
Qed.

(** ** Key navigation, again *)

(** X5: key navigation is stable: once [json[key]] (or [view[key]]) has
    returned, asking for the same key again returns the same view and
    changes nothing, so a missing key is vivified at most once. *)
Theorem index_key_twice (h h' : list Node) (p : ptr) (key : std_string) (v : View) :
  View_index_key h (mkView p) key = Ok (v, h') ->
  View_index_key h' (mkView p) key = Ok (v, h')
  /\ Json_index_key h' (mkJson p) key = Ok (v, h').
Proof.
  unfold View_index_key, Json_index_key; simpl.
  destruct (h !! p) as [n|] eqn:Hp; [|done].
  destruct n as [|children| | | | |]; try done. simpl.
  pose proof (lookup_lt_Some _ _ _ Hp) as Hlt.
  destruct (map_find key children) as [it|] eqn:Hfind.
  - intros [= <- <-]. by rewrite Hp, Hfind.
  - unfold addOrEditChild. rewrite lookup_app_l, Hp by done.
    intros [= <- <-].
    rewrite list_lookup_insert_eq by (rewrite length_app; lia). simpl.
    by rewrite map_find_assign.
Qed.

Lemma map_find_fold_assign_other {A} (k : std_string) (post : list (std_string * A))
    (g : A -> ptr) (m : list (std_string * ptr)) :
  k ∉ post.*1 ->
  map_find k (fold_left (fun m kv => map_assign kv.1 (g kv.2) m) post m) = map_find k m.
Proof.
  revert m. induction post as [|[k' e'] post IH]; intros m Hk; simpl; [done|].
  simpl in Hk. apply not_elem_of_cons in Hk as [Hne Hk].
  rewrite IH by done. by apply map_find_assign_ne.
Qed.

(** X6: in the Object made by the pair-list constructor, a key leads to
    the root node of the last pair given with that key; navigating to it
    returns a view of that very node and changes nothing. *)
Theorem object_then_key (pre post : list (std_string * Json)) (k : std_string)
    (e : Json) (h : list Node) :
  k ∉ post.*1 ->
  Json_index_key (Json_object (pre ++ (k, e) :: post) h).2
                 (Json_object (pre ++ (k, e) :: post) h).1 k
  = Ok (mkView (root e), (Json_object (pre ++ (k, e) :: post) h).2).
Proof.
  intros Hk. rewrite Json_object_eq. unfold Json_index_key; simpl.
  rewrite list_lookup_middle by done. simpl.
  rewrite fold_left_app. simpl.
  rewrite (map_find_fold_assign_other k post root) by done.
  by rewrite map_find_assign.
Qed.

(** ** The whitespace pass, again *)

Lemma strip_from_idempotent (inside : bool) (str : std_string) :
  strip_from inside (strip_from inside str) = strip_from inside str.
Proof.
  revert inside. induction str as [|ch rest IH]; intros inside; [done|].
  cbn [strip_from].
  destruct (Ascii.eqb_spec ch dquote) as [->|Hq].
  - change (isspace dquote) with false. cbn [andb strip_from].
    rewrite Ascii.eqb_refl. change (isspace dquote) with false. cbn [andb].
    by rewrite IH.
  - destruct (isspace ch && negb inside) eqn:E; [apply IH|].
    cbn [strip_from]. destruct (Ascii.eqb_spec ch dquote); [done|].
    by rewrite E, IH.
Qed.

(** X7: the whitespace pass changes nothing in a text it has already
    cleaned, so [parse] gives the same result on a text and on its
    cleaned form: white space outside string regions never matters. *)
Theorem parse_str_clean (str : std_string) :
  str_clean (str_clean str) = str_clean str
  /\ parse (str_clean str) = parse str.
Proof.
  unfold parse, str_clean. by rewrite strip_from_idempotent.
Qed.

Lemma strip_blank (str : std_string) :
  Forall (fun c => isspace c = true) str -> strip_from false str = [].
Proof.
  induction 1 as [|c str Hc _ IH]; [done|]. cbn [strip_from].
  destruct (Ascii.eqb_spec c dquote) as [->|_]; [done|]. by rewrite Hc.
Qed.

(** X8: a text that is empty or holds only white space has no value to
    read: [parse] reaches the end of [parseValue] and throws the pointer
    made by [new Malformed()]. *)
Theorem parse_blank (str : std_string) :
  Forall (fun c => isspace c = true) str ->
  parse str = Throw Malformed_ptr.
Proof.
  intros H. unfold parse. by rewrite (strip_blank _ H).
Qed.

(** X9: [parse] reads one value and stops: whatever follows the text of
    a printable tree is ignored, as long as a number is not run into the
    characters after it. *)
Theorem parse_ignores_rest (v : Value) (rest : std_string) :
  printable v ->
  number_ends (str_clean rest) ->
  parse (dump v ++ rest) = Ok v.
Proof.
  intros Hp Hend. unfold parse. rewrite (strip_dump v Hp rest).
  rewrite (parse_dump _ v Hp _ 0 (strip_from false rest)); [done|done|done|].
  rewrite length_app. lia.
Qed.

Lemma strip_inside_open (s : std_string) :
  quote_free s -> strip_from true s = s.
Proof.
  unfold quote_free. induction s as [|c s IH]; intros Hs; [done|].
  apply not_elem_of_cons in Hs as [Hc Hs]. cbn [strip_from].
  destruct (Ascii.eqb_spec c dquote); [done|].
  by rewrite andb_false_r, IH.
Qed.

Lemma scan_string_open (s : std_string) :
  quote_free s -> scan_string s = Undefined.
Proof.
  unfold quote_free. induction s as [|c s IH]; intros Hs; [done|].
  apply not_elem_of_cons in Hs as [Hc Hs]. simpl.
  destruct (Ascii.eqb_spec c dquote); [done|]. by rewrite IH.
Qed.

(** X10: a string that is opened and never closed is not reported as
    Malformed: the scanning loop runs past the end of the buffer, which is
    undefined. *)
Theorem parse_unterminated_string (s : std_string) :
  quote_free s ->
  parse (dquote :: s) = Undefined.
Proof.
  intros Hs. unfold parse.
  change (strip_from false (dquote :: s)) with (dquote :: strip_from true s).
  rewrite (strip_inside_open s Hs).
  replace (2 * length (dquote :: s) + 3) with (S (2 * length s + 4)) by (simpl; lia).
  rewrite parseRecursively_S. cbn [string_at lookup list_lookup].
  rewrite bind_Ok. cbn [Ascii.eqb]. unfold parseValue.
  rewrite !substr_drop by (simpl; lia). rewrite !bind_Ok. cbn [drop].
  rewrite !string_eqb_ne by (by destruct s as [|? [|? [|? [|? ?]]]]).
  cbn [string_at lookup list_lookup]. rewrite bind_Ok.
  change (is_number dquote) with false. rewrite Ascii.eqb_refl.
  rewrite drop_0, (scan_string_open s Hs). done.
Qed.

Lemma string_at_end (json : std_string) : string_at json (length json) = Ok NUL.
Proof.
  unfold string_at. rewrite lookup_ge_None_2 by done. by rewrite Nat.eqb_refl.
Qed.

Lemma string_at_beyond (json : std_string) (index : nat) :
  length json < index -> string_at json index = Undefined.
Proof.
  intros H. unfold string_at. rewrite lookup_ge_None_2 by lia.
  by destruct (Nat.eqb_spec index (length json)); [lia|].
Qed.

(** X11: a List or an Object that is opened, holds one value and is
    never closed drives the cursor beyond the buffer: after the value the
    loop steps over the terminating NUL, and the next loop test reads the
    character one past it, a read the language leaves undefined.  What a
    run does from there is not fixed by the code. *)
Theorem parse_unclosed_container (v : Value) (k : std_string) :
  printable v ->
  quote_free k ->
  parse ("["%char :: dump v) = Undefined
  /\ parse ("{"%char :: dquote :: k ++ dquote :: ":"%char :: dump v) = Undefined.
Proof.
  intros Hp Hk. destruct (dump_head v Hp) as (c & r & Hhead & Hc1 & Hc2 & _).
  split.
  - unfold parse. rewrite strip_char by done.
    pose proof (strip_dump v Hp []) as Hs. rewrite !app_nil_r in Hs. rewrite Hs.
    set (json := "["%char :: dump v).
    replace (2 * length json + 3) with (S (S (S (2 * length (dump v) + 2))))
      by (subst json; simpl; lia).
    rewrite parseRecursively_S.
    rewrite (string_at_head json 0 "["%char (dump v)), bind_Ok by done.
    change (Ascii.eqb "[" "{") with false. rewrite Ascii.eqb_refl. cbv iota.
    rewrite parseList_loop_S.
    rewrite (string_at_head json 1 c r), bind_Ok by (subst json; by rewrite <- Hhead).
    destruct (Ascii.eqb_spec c "]"); [done|].
    rewrite (parse_dump json v Hp _ 1 []); [|by rewrite app_nil_r|done|lia].
    rewrite bind_Ok. cbv beta iota.
    replace (1 + length (dump v)) with (length json) by done.
    rewrite string_at_end, bind_Ok. simpl negb. cbv iota zeta.
    rewrite parseList_loop_S, string_at_beyond by lia. done.
  - unfold parse. rewrite strip_char by done.
    pose proof (strip_quoted k (":"%char :: dump v) Hk) as Hq. rewrite Hq.
    rewrite strip_char by done.
    pose proof (strip_dump v Hp []) as Hs. rewrite !app_nil_r in Hs. rewrite Hs.
    set (json := "{"%char :: dquote :: k ++ dquote :: ":"%char :: dump v).
    assert (Hlen : length json = length k + length (dump v) + 4).
    { subst json. cbn [length]. rewrite length_app. simpl. lia. }
    replace (2 * length json + 3)
      with (S (S (S (2 * length k + 2 * length (dump v) + 8)))) by lia.
    rewrite parseRecursively_S.
    rewrite (string_at_head json 0 "{"%char
               (dquote :: k ++ dquote :: ":"%char :: dump v)), bind_Ok by done.
    rewrite Ascii.eqb_refl. cbv iota.
    rewrite parseObject_loop_S.
    assert (Hd1 : drop 1 json = dquote :: k ++ dquote :: ":"%char :: dump v) by done.
    rewrite (string_at_head _ _ _ _ Hd1), bind_Ok.
    change (Ascii.eqb dquote "}") with false. rewrite Ascii.eqb_refl.
    simpl negb. cbv iota zeta.
    pose proof (drop_next _ _ _ _ Hd1) as Hd2.
    rewrite Hd2, scan_string_quote_free, bind_Ok by done.
    apply drop_past in Hd2. do 2 apply drop_next in Hd2.
    rewrite (parse_dump json v Hp _ _ [] ); [|by rewrite app_nil_r|done|lia].
    rewrite bind_Ok. cbv beta iota.
    replace (S (S (2 + length k)) + length (dump v)) with (length json) by lia.
    rewrite string_at_end, bind_Ok. simpl negb. cbv iota zeta.
    rewrite parseObject_loop_S, string_at_beyond by lia. done.
Qed.

(** X12: an Object whose next entry does not start with a quote makes
    [parseObject] throw Malformed (the object itself, not a pointer), also
    when the text ends right after the opening brace. *)
Theorem parse_object_bad_key (c : ascii) (rest : std_string) :
  isspace c = false ->
  c <> dquote ->
  c <> "}"%char ->
  parse ("{"%char :: c :: rest) = Throw Malformed
  /\ parse ["{"%char] = Throw Malformed.
Proof.
  intros Hsp Hq Hc. split; [|done].
  unfold parse. rewrite !strip_char by done.
  set (json := "{"%char :: c :: strip_from false rest).
  replace (2 * length json + 3) with (S (S (2 * length json + 1))) by lia.
  rewrite parseRecursively_S.
  rewrite (string_at_head json 0 "{"%char (c :: strip_from false rest)), bind_Ok
    by done.
  rewrite Ascii.eqb_refl. cbv iota.
  rewrite parseObject_loop_S.
  rewrite (string_at_head json 1 c (strip_from false rest)), bind_Ok by done.
  destruct (Ascii.eqb_spec c "}"); [done|].
  by destruct (Ascii.eqb_spec c dquote).
Qed.

Lemma strip_dump_entries (cs : list (std_string * Value)) (tail : std_string) :
  Forall (fun kv => quote_free kv.1 /\ printable kv.2) cs ->
  strip_from false (dump_entries cs ++ tail) = dump_entries cs ++ strip_from false tail.
Proof.
  revert tail. induction cs as [|[k c] cs IH]; intros tail Hcs; [done|].
  inversion Hcs as [|? ? [Hk Hc] Hcs']; subst. simpl in Hk, Hc.
  change (dump_entries ((k, c) :: cs))
    with (dquote :: k ++ dquote :: ":"%char :: dump c
          ++ (match cs with [] => [] | _ :: _ => [","%char] end)
          ++ dump_entries cs).
  rewrite <- !app_comm_cons, <- !app_assoc. cbn [app].
  rewrite <- !app_assoc.
  rewrite strip_quoted, strip_char, (strip_dump c Hc) by done.
  apply (f_equal (fun x => dquote :: k ++ dquote :: ":"%char :: dump c ++ x)).
  destruct cs as [|c' cs]; [done|].
  cbn [app]. rewrite strip_char by done. f_equal. by apply IH.
Qed.

Lemma parseObject_loop_any (json : std_string) (cs : list (std_string * Value)) :
  Forall (fun kv => quote_free kv.1 /\ printable kv.2) cs ->
  forall fuel index node tail,
    drop index json = dump_entries cs ++ "}"%char :: tail ->
    length (dump_entries cs) + 1 < fuel ->
    parseObject_loop fuel json index node
    = Ok (VObject (fold_left (fun m kv => map_assign kv.1 kv.2 m) cs node),
          index + length (dump_entries cs) + 1).
Proof.
  induction 1 as [|[k v] cs (Hk & Hpr) _ IH];
    intros fuel index node tail Hdrop Hfuel;
    (destruct fuel as [|fuel]; [lia|]); rewrite parseObject_loop_S.
  - simpl in Hdrop. rewrite (string_at_head _ _ _ _ Hdrop), bind_Ok. simpl.
    do 2 f_equal. lia.
  - simpl in Hk, Hpr.
    change (dump_entries ((k, v) :: cs))
      with (dquote :: k ++ dquote :: ":"%char :: dump v
            ++ (match cs with [] => [] | _ :: _ => [","%char] end)
            ++ dump_entries cs) in *.
    cbn [app length] in Hdrop, Hfuel.
    rewrite <- !app_assoc in Hdrop. cbn [app] in Hdrop.
    rewrite <- !app_assoc in Hdrop.
    rewrite !length_app in Hfuel. cbn [length] in Hfuel.
    rewrite !length_app in Hfuel.
    rewrite (string_at_head _ _ _ _ Hdrop), bind_Ok.
    change (Ascii.eqb dquote "}") with false.
    rewrite Ascii.eqb_refl. cbv beta iota zeta. simpl negb. cbv iota.
    pose proof (drop_next _ _ _ _ Hdrop) as Hkey.
    rewrite Hkey, scan_string_quote_free, bind_Ok by done.
    apply drop_past in Hkey.
    do 2 apply drop_next in Hkey.
    rewrite (parse_dump json v Hpr fuel _ _ Hkey); [|destruct cs; number_ends_tac|lia].
    rewrite bind_Ok. cbv beta iota.
    apply drop_past in Hkey. cbn [Nat.add] in Hkey |- *.
    cbn [fold_left].
    destruct cs as [|c' cs].
    + simpl in Hkey. rewrite (string_at_head _ _ _ _ Hkey), bind_Ok.
      simpl negb. cbv iota zeta.
      rewrite (IH fuel _ _ tail Hkey) by (simpl; lia).
      do 2 f_equal.
      cbn [length]. rewrite !length_app. cbn [length].
      rewrite !length_app. simpl. lia.
    + cbn [app] in Hkey.
      rewrite (string_at_head _ _ _ _ Hkey), bind_Ok.
      simpl negb. cbv iota zeta.
      apply drop_next in Hkey.
      rewrite (IH fuel _ _ tail Hkey) by (simpl in *; lia).
      do 2 f_equal.
      cbn [length]. rewrite !length_app. cbn [length].
      rewrite !length_app. simpl. lia.
Qed.

(** X13: the entries of an Object text may come in any order and repeat
    a key: [parse] stores them as successive [addOrEditChild] calls do,
    so the Object read has its entries in key order and, for a repeated
    key, the value given last. *)
Theorem parse_object_any_order (cs : list (std_string * Value)) :
  Forall (fun kv => quote_free kv.1 /\ printable kv.2) cs ->
  parse ("{"%char :: dump_entries cs ++ ["}"%char])
  = Ok (VObject (fold_left (fun m kv => map_assign kv.1 kv.2 m) cs []))
  /\ map_ok (fold_left (fun m kv => map_assign kv.1 kv.2 m) cs []).
Proof.
  intros Hcs. split.
  - unfold parse. rewrite strip_char, (strip_dump_entries cs _ Hcs) by done.
    change (strip_from false ["}"%char]) with ["}"%char].
    set (json := "{"%char :: dump_entries cs ++ ["}"%char]).
    assert (Hlen : length json = length (dump_entries cs) + 2).
    { subst json. cbn [length]. rewrite length_app. simpl. lia. }
    replace (2 * length json + 3) with (S (2 * length json + 2)) by lia.
    rewrite parseRecursively_S.
    rewrite (string_at_head json 0 "{"%char (dump_entries cs ++ ["}"%char])), bind_Ok
      by done.
    rewrite Ascii.eqb_refl. cbv iota.
    rewrite (parseObject_loop_any json cs Hcs _ 1 [] []); [done|done|lia].
  - apply (fold_map_assign_ok (fun kv : std_string * Value => kv)). constructor.
Qed.

(** ** The pretty rendering read back *)

Lemma strip_space (c : ascii) (x : std_string) :
  isspace c = true -> strip_from false (c :: x) = strip_from false x.
Proof.
  intros Hsp. cbn [strip_from].
  destruct (Ascii.eqb_spec c dquote) as [->|_]; [done|]. by rewrite Hsp.
Qed.

Lemma strip_pretty (v : Value) :
  printable v ->
  forall rest,
    strip_from false (pretty v ++ rest) = compact_trailing v ++ strip_from false rest.
Proof.
  induction v as [|b|z|f|s|cs IH|cs IH] using Value_ind';
    intros Hp; inversion Hp as [?|? Hz|? Hs|? Hcs|? Hok Hcs]; subst; intros rest;
    try exact (strip_dump _ Hp rest).
  - change (pretty (VList cs)) with (lit "[ " ++ pretty_items cs ++ lit "]").
    change (compact_trailing (VList cs))
      with ("["%char :: trailing_items cs ++ ["]"%char]).
    rewrite <- !app_assoc.
    change (lit "[ " ++ ?x) with ("["%char :: " "%char :: x).
    rewrite strip_char, strip_space by done.
    rewrite <- app_comm_cons, <- app_assoc. f_equal.
    assert (Hitems : forall tail,
               strip_from false (pretty_items cs ++ tail)
               = trailing_items cs ++ strip_from false tail).
    { clear Hp. induction cs as [|c cs IHcs]; intros tail; [done|].
      inversion IH as [|? ? IHc IH']; inversion Hcs as [|? ? Hc Hcs']; subst.
      change (pretty_items (c :: cs)) with (pretty c ++ lit ", " ++ pretty_items cs).
      change (trailing_items (c :: cs))
        with (compact_trailing c ++ ","%char :: trailing_items cs).
      rewrite <- !app_assoc, (IHc Hc). f_equal.
      change (lit ", " ++ ?x) with (","%char :: " "%char :: x).
      rewrite strip_char, strip_space by done.
      rewrite <- app_comm_cons. f_equal. by apply IHcs. }
    rewrite Hitems. change (lit "]" ++ rest) with ("]"%char :: rest).
    by rewrite strip_char.
  - change (pretty (VObject cs)) with (lit "{ " ++ pretty_entries cs ++ lit " }").
    change (compact_trailing (VObject cs))
      with ("{"%char :: trailing_entries cs ++ ["}"%char]).
    rewrite <- !app_assoc.
    change (lit "{ " ++ ?x) with ("{"%char :: " "%char :: x).
    rewrite strip_char, strip_space by done.
    rewrite <- app_comm_cons, <- app_assoc. f_equal.
    assert (Hitems : forall tail,
               strip_from false (pretty_entries cs ++ tail)
               = trailing_entries cs ++ strip_from false tail).
    { clear Hp Hok. induction cs as [|[k c] cs IHcs]; intros tail; [done|].
      inversion IH as [|? ? IHc IH']; inversion Hcs as [|? ? [Hk Hc] Hcs']; subst.
      simpl in IHc, Hk, Hc.
      change (pretty_entries ((k, c) :: cs))
        with (lit " " ++ dquote :: k ++ dquote :: lit " : "
              ++ pretty c ++ lit ", " ++ pretty_entries cs).
      change (trailing_entries ((k, c) :: cs))
        with (dquote :: k ++ dquote :: ":"%char :: compact_trailing c
              ++ ","%char :: trailing_entries cs).
      change (lit " " ++ ?x) with (" "%char :: x).
      rewrite <- !app_comm_cons, <- !app_assoc. cbn [app].
      rewrite <- !app_assoc.
      rewrite strip_space by done.
      change (lit " : " ++ ?x) with (" "%char :: ":"%char :: " "%char :: x).
      rewrite strip_quoted, strip_space, strip_char, strip_space by done.
      rewrite (IHc Hc).
      apply (f_equal (fun x => dquote :: k ++ dquote :: ":"%char
                                 :: compact_trailing c ++ x)).
      change (lit ", " ++ ?x) with (","%char :: " "%char :: x).
      rewrite strip_char, strip_space by done.
      rewrite <- app_comm_cons. f_equal. by apply IHcs. }
    rewrite Hitems. change (lit " }" ++ rest) with (" "%char :: "}"%char :: rest).
    by rewrite strip_space, strip_char.
Qed.

Lemma trailing_head (v : Value) :
  printable v ->
  exists c r, compact_trailing v = c :: r /\ c <> "]"%char /\ c <> "}"%char.
Proof.
  intros Hp. destruct (dump_head v Hp) as (c & r & Hhead & ? & ? & _).
  inversion Hp; subst; try (exists c, r; by repeat split).
  - eexists _, _. by repeat split.
  - eexists _, _. by repeat split.
Qed.

Lemma parseList_loop_trailing (json : std_string) (cs : list Value) :
  Forall (fun c => printable c /\ parses_trailing json c) cs ->
  forall fuel index node tail,
    drop index json = trailing_items cs ++ "]"%char :: tail ->
    length (trailing_items cs) + 1 < fuel ->
    parseList_loop fuel json index node
    = Ok (VList (node ++ cs), index + length (trailing_items cs) + 1).
Proof.
  induction 1 as [|c cs [Hpr Hc] _ IH]; intros fuel index node tail Hdrop Hfuel;
    (destruct fuel as [|fuel]; [lia|]); rewrite parseList_loop_S.
  - simpl in Hdrop. rewrite (string_at_head _ _ _ _ Hdrop), bind_Ok. simpl.
    rewrite app_nil_r. do 2 f_equal. lia.
  - change (trailing_items (c :: cs))
      with (compact_trailing c ++ ","%char :: trailing_items cs) in *.
    destruct (trailing_head c Hpr) as (ch & r & Hhead & Hch & _).
    rewrite <- !app_assoc in Hdrop. rewrite <- app_comm_cons in Hdrop.
    rewrite !length_app in Hfuel. cbn [length] in Hfuel.
    rewrite (string_at_head json index ch
               (r ++ ","%char :: trailing_items cs ++ "]"%char :: tail))
      by (by rewrite Hdrop, Hhead).
    rewrite bind_Ok. destruct (Ascii.eqb_spec ch "]"); [done|].
    rewrite (Hc fuel index _ Hdrop); [|number_ends_tac|lia].
    rewrite bind_Ok. cbv beta iota.
    apply drop_past in Hdrop.
    rewrite (string_at_head _ _ _ _ Hdrop), bind_Ok.
    simpl negb. cbv iota zeta.
    apply drop_next in Hdrop.
    rewrite (IH fuel _ _ tail Hdrop) by lia.
    rewrite <- app_assoc. do 2 f_equal.
    rewrite !length_app. simpl. lia.
Qed.

Lemma parseObject_loop_trailing (json : std_string) (cs : list (std_string * Value)) :
  Forall (fun kv => quote_free kv.1 /\ printable kv.2 /\ parses_trailing json kv.2) cs ->
  forall fuel index node tail,
    map_ok (node ++ cs) ->
    drop index json = trailing_entries cs ++ "}"%char :: tail ->
    length (trailing_entries cs) + 1 < fuel ->
    parseObject_loop fuel json index node
    = Ok (VObject (node ++ cs), index + length (trailing_entries cs) + 1).
Proof.
  induction 1 as [|[k v] cs (Hk & Hpr & Hv) _ IH];
    intros fuel index node tail Hok Hdrop Hfuel;
    (destruct fuel as [|fuel]; [lia|]); rewrite parseObject_loop_S.
  - simpl in Hdrop. rewrite (string_at_head _ _ _ _ Hdrop), bind_Ok. simpl.
    rewrite app_nil_r. do 2 f_equal. lia.
  - simpl in Hk, Hpr, Hv.
    change (trailing_entries ((k, v) :: cs))
      with (dquote :: k ++ dquote :: ":"%char :: compact_trailing v
            ++ ","%char :: trailing_entries cs) in *.
    cbn [app length] in Hdrop, Hfuel.
    rewrite <- !app_assoc in Hdrop. cbn [app] in Hdrop.
    rewrite <- !app_assoc in Hdrop. rewrite <- app_comm_cons in Hdrop.
    rewrite !length_app in Hfuel. cbn [length] in Hfuel.
    rewrite !length_app in Hfuel. cbn [length] in Hfuel.
    rewrite (string_at_head _ _ _ _ Hdrop), bind_Ok.
    change (Ascii.eqb dquote "}") with false.
    rewrite Ascii.eqb_refl. cbv beta iota zeta. simpl negb. cbv iota.
    pose proof (drop_next _ _ _ _ Hdrop) as Hkey.
    rewrite Hkey, scan_string_quote_free, bind_Ok by done.
    apply drop_past in Hkey.
    do 2 apply drop_next in Hkey.
    rewrite (Hv fuel _ _ Hkey); [|number_ends_tac|lia].
    rewrite bind_Ok. cbv beta iota.
    apply drop_past in Hkey. cbn [Nat.add] in Hkey |- *.
    rewrite (map_assign_last k v node) by exact (sorted_prefix_lt _ _ _ Hok).
    assert (Hok' : map_ok ((node ++ [(k, v)]) ++ cs)) by by rewrite <- app_assoc.
    rewrite (string_at_head _ _ _ _ Hkey), bind_Ok.
    simpl negb. cbv iota zeta.
    apply drop_next in Hkey.
    rewrite (IH fuel _ _ tail Hok' Hkey) by lia.
    rewrite <- app_assoc. do 2 f_equal.
    cbn [length]. rewrite !length_app. cbn [length].
    rewrite !length_app. simpl. lia.
Qed.

Lemma parse_trailing (json : std_string) (v : Value) :
  printable v -> parses_trailing json v.
Proof.
  induction v as [|b|z|f|s|cs IH|cs IH] using Value_ind';
    intros Hp; inversion Hp as [?|? Hz|? Hs|? Hcs|? Hok Hcs]; subst;
    try exact (parse_dump json _ Hp);
    intros fuel index tail Hdrop Hend Hfuel;
    (destruct fuel as [|fuel]; [lia|]); rewrite parseRecursively_S.
  - change (compact_trailing (VList cs))
      with ("["%char :: trailing_items cs ++ ["]"%char]) in *.
    cbn [app length] in Hdrop, Hfuel.
    rewrite <- app_assoc in Hdrop. cbn [app] in Hdrop.
    rewrite length_app in Hfuel. cbn [length] in Hfuel.
    rewrite (string_at_head _ _ _ _ Hdrop), bind_Ok.
    change (Ascii.eqb "[" "{") with false. rewrite Ascii.eqb_refl. cbv iota.
    apply drop_next in Hdrop.
    rewrite (parseList_loop_trailing json cs) with (tail := tail); [|..|done|lia].
    + do 2 f_equal. cbn [length]. rewrite length_app. simpl. lia.
    + apply Forall_forall. intros c Hc. split.
      * by eapply Forall_forall in Hcs.
      * eapply Forall_forall in IH; [|done]. apply IH.
        by eapply Forall_forall in Hcs.
  - change (compact_trailing (VObject cs))
      with ("{"%char :: trailing_entries cs ++ ["}"%char]) in *.
    cbn [app length] in Hdrop, Hfuel.
    rewrite <- app_assoc in Hdrop. cbn [app] in Hdrop.
    rewrite length_app in Hfuel. cbn [length] in Hfuel.
    rewrite (string_at_head _ _ _ _ Hdrop), bind_Ok.
    rewrite Ascii.eqb_refl. cbv iota.
    apply drop_next in Hdrop.
    rewrite (parseObject_loop_trailing json cs) with (tail := tail);
      [|..|done|done|lia].
    + do 2 f_equal. cbn [length]. rewrite length_app. simpl. lia.
    + apply Forall_forall. intros kv Hkv.
      pose proof (proj1 (Forall_forall _ _) Hcs kv Hkv) as [Hq Hpr].
      pose proof (proj1 (Forall_forall _ _) IH kv Hkv) as Hkvp.
      repeat split; [done..|]. by apply Hkvp.
Qed.

(** X14: the pretty rendering is read back too: the whitespace pass
    removes its spacing, and the loops of [parseList] and [parseObject]
    step over the comma that follows the last element, so [parse] of the
    pretty text of a printable tree gives the tree. *)
Theorem parse_pretty (v : Value) :
  printable v -> parse (pretty v) = Ok v.
Proof.
  intros Hp. unfold parse.
  pose proof (strip_pretty v Hp []) as Hstrip. rewrite !app_nil_r in Hstrip.
  rewrite Hstrip.
  rewrite (parse_trailing (compact_trailing v) v Hp _ 0 []); [done| |done|lia].
  by rewrite app_nil_r.
Qed.

(** ** Heaps stay well formed *)

Lemma heap_ok_nil : heap_ok [].
Proof. exists (fun _ => 0). intros p n H. by rewrite lookup_nil in H. Qed.

(** Case analysis on the addresses compared by a ranking. *)
Ltac rank_cases :=
  repeat match goal with
         | |- context [Nat.eqb ?a ?b] => destruct (Nat.eqb_spec a b)
         end;
  cbv beta iota in *; try lia.

Lemma heap_ok_snoc (h : list Node) (n : Node) :
  heap_ok h ->
  Forall (fun c => c < length h) (children_of n) ->
  heap_ok (h ++ [n]).
Proof.
  intros [rank Hrank] Hn.
  exists (fun q => if q =? length h then length h else rank q).
  intros q m Hq. rewrite length_app. cbn [length].
  destruct (Nat.eq_dec q (length h)) as [->|Hne].
  - rewrite list_lookup_middle in Hq by done. injection Hq as <-.
    split; [rank_cases|]. eapply Forall_impl; [exact Hn|]. intros c Hc. cbv beta.
    destruct (lookup_lt_is_Some_2 h c Hc) as [m Hm].
    destruct (Hrank c m Hm). rank_cases.
  - assert (Hlt : q < length h).
    { apply lookup_lt_Some in Hq. rewrite length_app in Hq. simpl in Hq. lia. }
    rewrite lookup_app_l in Hq by done.
    destruct (Hrank q m Hq) as [Hr Hch]. split; [rank_cases|].
    eapply Forall_impl; [exact Hch|]. intros c [Hc Hrc]. cbv beta. rank_cases.
Qed.

Lemma Forall_map_assign_values (Q : ptr -> Prop) (key : std_string) (v : ptr)
    (m : list (std_string * ptr)) :
  Q v -> Forall Q m.*2 -> Forall Q (map_assign key v m).*2.
Proof.
  intros Hv. induction m as [|[k x] m IH]; simpl; intros Hm.
  - by repeat constructor.
  - inversion Hm as [|? ? Hx Hm']; subst.
    destruct (key_compare key k); simpl; repeat constructor; auto.
Qed.

Lemma heap_ok_vivify (h : list Node) (p : ptr) (children : list (std_string * ptr))
    (key : std_string) :
  heap_ok h ->
  h !! p = Some (ObjectNode children) ->
  heap_ok (addOrEditChild (h ++ [NullNode]) p key (length h)).
Proof.
  intros [rank Hrank] Hp. pose proof (lookup_lt_Some _ _ _ Hp) as Hlt.
  unfold addOrEditChild. rewrite lookup_app_l, Hp by done.
  exists (fun q => if q =? length h then 0 else S (rank q)).
  intros q m Hq. rewrite length_insert, length_app. cbn [length].
  destruct (Nat.eq_dec q p) as [->|Hqp].
  - rewrite list_lookup_insert_eq in Hq by (rewrite length_app; lia).
    injection Hq as <-. destruct (Hrank p _ Hp) as [Hr Hch].
    split; [rank_cases|].
    cbn [children_of]. apply Forall_map_assign_values.
    + rank_cases.
    + eapply Forall_impl; [exact Hch|]. intros c [Hc Hrc]. cbv beta. rank_cases.
  - rewrite list_lookup_insert_ne in Hq by done.
    destruct (Nat.eq_dec q (length h)) as [->|Hne].
    + rewrite list_lookup_middle in Hq by done. injection Hq as <-.
      split; [rank_cases|constructor].
    + assert (Hq' : q < length h).
      { apply lookup_lt_Some in Hq. rewrite length_app in Hq. simpl in Hq. lia. }
      rewrite lookup_app_l in Hq by done.
      destruct (Hrank q m Hq) as [Hr Hch]. split; [rank_cases|].
      eapply Forall_impl; [exact Hch|]. intros c [Hc Hrc]. cbv beta. rank_cases.
Qed.

Lemma heap_ok_child (h : list Node) (p c : ptr) (n : Node) :
  heap_ok h -> h !! p = Some n -> c ∈ children_of n -> c < length h.
Proof.
  intros [rank Hrank] Hp Hc. destruct (Hrank p n Hp) as [_ Hch].
  by destruct (proj1 (Forall_forall _ _) Hch c Hc).
Qed.

Lemma index_key_heap_ok (h h' : list Node) (p : ptr) (key : std_string) (v : View) :
  heap_ok h ->
  View_index_key h (mkView p) key = Ok (v, h') ->
  heap_ok h' /\ node v < length h'.
Proof.
  intros Hok. unfold View_index_key; simpl.
  destruct (h !! p) as [n|] eqn:Hp; [|done].
  destruct n as [|children| | | | |]; try done. simpl.
  destruct (map_find key children) as [it|] eqn:Hfind.
  - intros [= <- <-]. split; [done|]. simpl.
    apply (heap_ok_child h p it _ Hok Hp). simpl.
    clear -Hfind. induction children as [|[k x] children IH]; [done|].
    simpl in *. destruct (string_eqb k key).
    + injection Hfind as ->. left.
    + right. by apply IH.
  - intros [= <- <-]. split; [by eapply heap_ok_vivify|].
    simpl. unfold addOrEditChild.
    pose proof (lookup_lt_Some _ _ _ Hp).
    rewrite lookup_app_l, Hp by done.
    rewrite length_insert, length_app. simpl. lia.
Qed.

Lemma Json_index_key_View (h : list Node) (j : Json) (key : std_string) :
  Json_index_key h j key = View_index_key h (mkView (root j)) key.
Proof. done. Qed.

Lemma load_ranked (h : list Node) (rank : ptr -> nat) :
  (forall p n, h !! p = Some n ->
               rank p < length h
               /\ Forall (fun c => c < length h /\ rank c < rank p) (children_of n)) ->
  forall fuel p, p < length h -> rank p < fuel -> is_Some (load fuel h p).
Proof.
  intros Hrank. induction fuel as [|fuel IH]; intros p Hp Hfuel; [lia|].
  destruct (lookup_lt_is_Some_2 h p Hp) as [n Hn].
  destruct (Hrank p n Hn) as [_ Hch].
  cbn [load]. rewrite Hn. destruct n as [|children|children| | | |]; try done.
  - apply fmap_is_Some, mapM_is_Some_2.
    cbn [children_of] in Hch. apply Forall_fmap in Hch.
    eapply Forall_impl; [exact Hch|]. intros [k c] [Hc Hr]. simpl in *.
    apply fmap_is_Some, IH; lia.
  - apply fmap_is_Some, mapM_is_Some_2.
    eapply Forall_impl; [exact Hch|]. intros c [Hc Hr]. simpl.
    apply IH; lia.
Qed.

(** X15: in a well-formed heap [Json::dump] always produces a text: the
    walk over the children of a document ends, whatever nodes are shared. *)
Theorem dump_total (h : list Node) (j : Json) :
  heap_ok h ->
  root j < length h ->
  exists text, Json_dump h j = Some text.
Proof.
  intros [rank Hrank] Hj.
  destruct (lookup_lt_is_Some_2 h _ Hj) as [n Hn].
  destruct (Hrank _ n Hn) as [Hr _].
  destruct (load_ranked h rank Hrank (S (length h)) (root j) Hj ltac:(lia)) as [v Hv].
  exists (dump v). unfold Json_dump. by rewrite Hv.
Qed.

Lemma fold_assign_values (Q : ptr -> Prop) {A} (g : A -> ptr)
    (elems : list (std_string * A)) (m : list (std_string * ptr)) :
  Forall (fun kv => Q (g kv.2)) elems ->
  Forall Q m.*2 ->
  Forall Q (fold_left (fun m kv => map_assign kv.1 (g kv.2) m) elems m).*2.
Proof.
  intros Helems. revert m. induction Helems as [|e elems He _ IH]; intros m Hm; [done|].
  simpl. apply IH. by apply Forall_map_assign_values.
Qed.

(** X16: the operations keep the heap well formed.  From a well-formed
    heap, the leaf constructors, [Json::array] and the pair-list
    constructor applied to existing documents, key navigation (with or
    without vivification) and typed assignment all give a well-formed
    heap, and the views that navigation returns are bound to cells of it:
    no operation makes a dangling pointer or a cycle. *)
Theorem heap_ok_preserved (h : list Node) :
  heap_ok h ->
  (forall T (x : leaf T), heap_ok (Json_leaf T x h).2)
  /\ (forall elems : list Json,
         Forall (fun e => root e < length h) elems ->
         heap_ok (Json_array elems h).2)
  /\ (forall elems : list (std_string * Json),
         Forall (fun kv => root kv.2 < length h) elems ->
         heap_ok (Json_object elems h).2)
  /\ (forall j key v h',
         Json_index_key h j key = Ok (v, h') -> heap_ok h' /\ node v < length h')
  /\ (forall w key v h',
         View_index_key h w key = Ok (v, h') -> heap_ok h' /\ node v < length h')
  /\ (forall w idx v, View_index_idx h w idx = Ok v -> node v < length h)
  /\ (forall T w (x : leaf T) w' h',
         View_assign T h w x = Ok (w', h') -> heap_ok h').
Proof.
  intros Hok. repeat split.
  - intros T x. unfold Json_leaf; simpl. apply heap_ok_snoc; [done|].
    destruct T; constructor.
  - intros elems Helems. rewrite Json_array_eq; simpl.
    apply heap_ok_snoc; [done|]. simpl. by apply Forall_fmap.
  - intros elems Helems. rewrite Json_object_eq; simpl.
    apply heap_ok_snoc; [done|]. simpl.
    by apply (fold_assign_values (fun c => c < length h) root).
  - rewrite Json_index_key_View in H. by eapply index_key_heap_ok.
  - rewrite Json_index_key_View in H. by eapply index_key_heap_ok.
  - destruct w as [p]. by eapply index_key_heap_ok.
  - destruct w as [p]. by eapply index_key_heap_ok.
  - intros w idx v. unfold View_index_idx.
    destruct (h !! node w) as [n|] eqn:Hw; [|done].
    destruct n as [| |children| | | |]; try done. simpl.
    destruct (children !! idx) as [c|] eqn:Hc; [|done].
    intros [= <-]. simpl. eapply heap_ok_child; [done..|].
    simpl. by eapply list_elem_of_lookup_2.
  - intros T w x w' h'. unfold View_assign.
    destruct (h !! node w) as [n|] eqn:Hw; [|done].
    destruct (value_of T n) as [old| | |] eqn:Hold; try done. simpl.
    intros [= <- <-]. destruct Hok as [rank Hrank].
    exists rank. intros p m Hp. rewrite length_insert.
    destruct (Nat.eq_dec p (node w)) as [->|Hne].
    + rewrite list_lookup_insert_eq in Hp by by eapply lookup_lt_Some.
      injection Hp as <-. destruct (Hrank _ _ Hw) as [Hr _].
      split; [done|]. destruct T; constructor.
    + rewrite list_lookup_insert_ne in Hp by done. by apply Hrank.
Qed.

(** ** Parsed documents on the heap *)

(** A tree read from a heap is read again with more fuel and after
    further cells were allocated. *)
Lemma load_extend (h k : list Node) :
  forall fuel fuel' p v,
    load fuel h p = Some v -> fuel <= fuel' -> load fuel' (h ++ k) p = Some v.
Proof.
  induction fuel as [|fuel IH]; intros fuel' p v Hload Hle; [done|].
  destruct fuel' as [|fuel']; [lia|]. cbn [load] in *.
  destruct (h !! p) as [n|] eqn:Hn; [|done].
  rewrite (lookup_app_l_Some _ _ _ _ Hn).
  destruct n as [|children|children| | | |]; try done.
  - apply fmap_Some in Hload as (vs & Hvs & ->).
    apply fmap_Some. exists vs. split; [|done].
    apply mapM_Some. apply mapM_Some in Hvs.
    eapply Forall2_impl; [exact Hvs|]. intros [key c] y Hy. simpl in *.
    apply fmap_Some in Hy as (v & Hv & ->).
    apply fmap_Some. exists v. split; [|done]. apply IH; [done|lia].
  - apply fmap_Some in Hload as (vs & Hvs & ->).
    apply fmap_Some. exists vs. split; [|done].
    apply mapM_Some. apply mapM_Some in Hvs.
    eapply Forall2_impl; [exact Hvs|]. intros c y Hy. apply IH; [done|lia].
Qed.

Lemma alloc_list_spec (cs : list Value) :
  Forall (fun c => forall h, allocated c h (alloc c h)) cs ->
  forall h, exists K,
    (alloc_list cs h).2 = h ++ K
    /\ Forall2 (fun p c => load (length K) (h ++ K) p = Some c) (alloc_list cs h).1 cs.
Proof.
  induction 1 as [|c cs Hc _ IH]; intros h.
  - exists []. simpl. by rewrite app_nil_r.
  - cbn [alloc_list]. destruct (Hc h) as (k & n & -> & Hload).
    destruct (IH ((h ++ k) ++ [n])) as (K' & HK & Hall).
    destruct (alloc_list cs ((h ++ k) ++ [n])) as [ps h2].
    cbv beta iota zeta. cbn [fst snd] in *. subst h2.
    exists (k ++ [n] ++ K'). rewrite !app_assoc. split; [done|].
    constructor.
    + eapply load_extend; [exact Hload|]. rewrite !length_app. simpl. lia.
    + eapply Forall2_impl; [exact Hall|]. intros p c' Hp. simpl in Hp.
      rewrite <- (app_nil_r (((h ++ k) ++ [n]) ++ K')).
      eapply load_extend; [exact Hp|]. rewrite !length_app. simpl. lia.
Qed.

Lemma alloc_entries_spec (cs : list (std_string * Value)) :
  Forall (fun kv => forall h, allocated kv.2 h (alloc kv.2 h)) cs ->
  forall h, exists K,
    (alloc_entries cs h).2 = h ++ K
    /\ Forall2 (fun kp kc => pair kp.1 <$> load (length K) (h ++ K) kp.2 = Some kc)
         (alloc_entries cs h).1 cs.
Proof.
  induction 1 as [|[key c] cs Hc _ IH]; intros h.
  - exists []. simpl. by rewrite app_nil_r.
  - cbn [alloc_entries]. simpl in Hc. destruct (Hc h) as (k & n & -> & Hload).
    destruct (IH ((h ++ k) ++ [n])) as (K' & HK & Hall).
    destruct (alloc_entries cs ((h ++ k) ++ [n])) as [ps h2].
    cbv beta iota zeta. cbn [fst snd] in *. subst h2.
    exists (k ++ [n] ++ K'). rewrite !app_assoc. split; [done|].
    constructor.
    + simpl. erewrite load_extend; [done|exact Hload|].
      rewrite !length_app. simpl. lia.
    + eapply Forall2_impl; [exact Hall|]. intros [key' p] kc Hp. simpl in *.
      apply fmap_Some in Hp as (v & Hv & ->). apply fmap_Some. exists v.
      split; [|done].
      rewrite <- (app_nil_r (((h ++ k) ++ [n]) ++ K')).
      eapply load_extend; [exact Hv|]. rewrite !length_app. simpl. lia.
Qed.

Lemma alloc_spec (v : Value) : forall h, allocated v h (alloc v h).
Proof.
  induction v as [|b|z|f|s|cs IH|cs IH] using Value_ind'; intros h.
  1-5: eexists [], _; rewrite app_nil_r; split; [reflexivity|];
       cbn [load]; by rewrite list_lookup_middle.
  - change (alloc (VList cs) h)
      with (let '(ps, h') := alloc_list cs h in make_shared (ListNode ps) h').
    destruct (alloc_list_spec cs IH h) as (K & HK & Hall).
    destruct (alloc_list cs h) as [ps h']. cbv beta iota zeta. cbn [fst snd] in *. subst h'.
    exists K, (ListNode ps). split; [done|].
    cbn [load]. rewrite list_lookup_middle by done.
    apply fmap_Some. exists cs. split; [|done]. apply mapM_Some.
    eapply Forall2_impl; [exact Hall|]. intros p c Hp.
    eapply load_extend; [exact Hp|done].
  - change (alloc (VObject cs) h)
      with (let '(ps, h') := alloc_entries cs h in make_shared (ObjectNode ps) h').
    destruct (alloc_entries_spec cs IH h) as (K & HK & Hall).
    destruct (alloc_entries cs h) as [ps h']. cbv beta iota zeta. cbn [fst snd] in *. subst h'.
    exists K, (ObjectNode ps). split; [done|].
    cbn [load]. rewrite list_lookup_middle by done.
    apply fmap_Some. exists cs. split; [|done]. apply mapM_Some.
    eapply Forall2_impl; [exact Hall|]. intros [key p] kc Hp. simpl in *.
    apply fmap_Some in Hp as (v & Hv & ->). apply fmap_Some. exists v.
    split; [|done]. eapply load_extend; [exact Hv|done].
Qed.

Lemma load_Some_lt (fuel : nat) (h : list Node) (p : ptr) (v : Value) :
  load fuel h p = Some v -> p < length h.
Proof.
  destruct fuel as [|fuel]; [done|]. cbn [load].
  destruct (h !! p) eqn:Hp; [|done]. intros _. by eapply lookup_lt_Some.
Qed.

Lemma alloc_list_ok (cs : list Value) :
  Forall (fun c => forall h, heap_ok h -> heap_ok (alloc c h).2) cs ->
  forall h, heap_ok h -> heap_ok (alloc_list cs h).2.
Proof.
  induction 1 as [|c cs Hc _ IH]; intros h Hok; [done|].
  cbn [alloc_list]. specialize (Hc h Hok).
  destruct (alloc c h) as [p h1]. specialize (IH h1 Hc).
  by destruct (alloc_list cs h1).
Qed.

Lemma alloc_entries_ok (cs : list (std_string * Value)) :
  Forall (fun kv => forall h, heap_ok h -> heap_ok (alloc kv.2 h).2) cs ->
  forall h, heap_ok h -> heap_ok (alloc_entries cs h).2.
Proof.
  induction 1 as [|[key c] cs Hc _ IH]; intros h Hok; [done|].
  cbn [alloc_entries]. specialize (Hc h Hok). simpl in Hc.
  destruct (alloc c h) as [p h1]. specialize (IH h1 Hc).
  by destruct (alloc_entries cs h1).
Qed.

Lemma alloc_heap_ok (v : Value) : forall h, heap_ok h -> heap_ok (alloc v h).2.
Proof.
  induction v as [|b|z|f|s|cs IH|cs IH] using Value_ind'; intros h Hok.
  1-5: by apply heap_ok_snoc; [|constructor].
  - change (alloc (VList cs) h)
      with (let '(ps, h') := alloc_list cs h in make_shared (ListNode ps) h').
    pose proof (alloc_list_ok cs IH h Hok) as Hok'.
    destruct (alloc_list_spec cs (proj2 (Forall_forall _ _) (fun c _ => alloc_spec c)) h)
      as (K & HK & Hall).
    destruct (alloc_list cs h) as [ps h']. cbv beta iota zeta. cbn [fst snd] in *.
    apply heap_ok_snoc; [done|]. cbn [children_of]. subst h'.
    apply Forall_forall. intros p Hp.
    apply list_elem_of_lookup in Hp as [i Hi].
    destruct (Forall2_lookup_l _ _ _ _ _ Hall Hi) as (c & _ & Hc).
    by eapply load_Some_lt.
  - change (alloc (VObject cs) h)
      with (let '(ps, h') := alloc_entries cs h in make_shared (ObjectNode ps) h').
    pose proof (alloc_entries_ok cs IH h Hok) as Hok'.
    destruct (alloc_entries_spec cs
                (proj2 (Forall_forall _ _) (fun kv _ => alloc_spec kv.2)) h)
      as (K & HK & Hall).
    destruct (alloc_entries cs h) as [ps h']. cbv beta iota zeta. cbn [fst snd] in *.
    apply heap_ok_snoc; [done|]. cbn [children_of]. subst h'.
    apply Forall_forall. intros p Hp.
    apply list_elem_of_fmap in Hp as ([key p'] & -> & Hp).
    apply list_elem_of_lookup in Hp as [i Hi].
    destruct (Forall2_lookup_l _ _ _ _ _ Hall Hi) as (c & _ & Hc). simpl in *.
    apply fmap_Some in Hc as (v & Hv & _). by eapply load_Some_lt.
Qed.

(** X17: the document that [Json_parse] makes from a text holds exactly
    the tree that [parse] reads from it: serializing the document gives
    the compact text of that tree, the cells that existed before are
    untouched, and a well-formed heap stays well formed. *)
Theorem Json_parse_holds_tree (str : std_string) (h : list Node) (v : Value) :
  parse str = Ok v ->
  exists (j : Json) (h' : list Node),
    Json_parse str h = Ok (j, h')
    /\ load (S (length h')) h' (root j) = Some v
    /\ Json_dump h' j = Some (dump v)
    /\ (forall p, p < length h -> h' !! p = h !! p)
    /\ (heap_ok h -> heap_ok h').
Proof.
  intros Hparse. unfold Json_parse. rewrite Hparse, bind_Ok.
  pose proof (alloc_heap_ok v h) as Hok.
  destruct (alloc_spec v h) as (k & n & E & Hload). rewrite E in Hok |- *.
  eexists _, _. split; [reflexivity|]. cbn [root].
  assert (Hl : load (S (length ((h ++ k) ++ [n]))) ((h ++ k) ++ [n]) (length (h ++ k))
               = Some v).
  { rewrite <- (app_nil_r ((h ++ k) ++ [n])) at 2.
    eapply load_extend; [exact Hload|]. rewrite !length_app. simpl. lia. }
  split; [done|]. split; [|split; [|done]].
  - unfold Json_dump; cbn [root]. by rewrite Hl.
  - intros p Hp. by rewrite <- app_assoc, lookup_app_l.
Qed.

(** ** More on what the parser accepts *)

(** X18: the compact text determines the tree: two printable trees with
    the same serialization are the same tree. *)
Theorem dump_injective (v1 v2 : Value) :
  printable v1 -> printable v2 -> dump v1 = dump v2 -> v1 = v2.
Proof.
  intros H1 H2 E. apply parse_dump_printable in H1, H2.
  rewrite E in H1. congruence.
Qed.

(** X19: [parseObject] steps over the character after a key without
    looking at it, and [parseList] over the character after an element:
    any character in the place of the colon, and any character that ends
    a number in the place of a comma, gives the same result. *)
Theorem parse_separators_unchecked (k : std_string) (v1 v2 : Value) (c : ascii) :
  printable v1 ->
  printable v2 ->
  quote_free k ->
  isspace c = false ->
  c <> dquote ->
  parse ("{"%char :: dquote :: k ++ dquote :: c :: dump v1 ++ ["}"%char])
  = Ok (VObject [(k, v1)])
  /\ (c <> "]"%char -> ~ digit_or_dot c ->
      parse ("["%char :: dump v1 ++ c :: dump v2 ++ ["]"%char]) = Ok (VList [v1; v2])).
Proof.
  intros Hp1 Hp2 Hk Hsp Hq. split.
  - unfold parse. rewrite strip_char by done.
    rewrite (strip_quoted k _ Hk), strip_char, (strip_dump v1 Hp1) by done.
    change (strip_from false ["}"%char]) with ["}"%char].
    set (json := "{"%char :: dquote :: k ++ dquote :: c :: dump v1 ++ ["}"%char]).
    assert (Hlen : length json = length k + length (dump v1) + 5).
    { subst json. cbn [length]. rewrite length_app. cbn [length].
      rewrite length_app. simpl. lia. }
    replace (2 * length json + 3)
      with (S (S (S (2 * length k + 2 * length (dump v1) + 10)))) by lia.
    rewrite parseRecursively_S.
    rewrite (string_at_head json 0 "{"%char
               (dquote :: k ++ dquote :: c :: dump v1 ++ ["}"%char])), bind_Ok by done.
    rewrite Ascii.eqb_refl. cbv iota.
    rewrite parseObject_loop_S.
    assert (Hd : drop 1 json = dquote :: k ++ dquote :: c :: dump v1 ++ ["}"%char])
      by done.
    rewrite (string_at_head _ _ _ _ Hd), bind_Ok.
    change (Ascii.eqb dquote "}") with false. rewrite Ascii.eqb_refl.
    simpl negb. cbv iota zeta.
    apply drop_next in Hd.
    rewrite Hd, scan_string_quote_free, bind_Ok by done.
    apply drop_past in Hd. do 2 apply drop_next in Hd.
    rewrite (parse_dump json v1 Hp1 _ _ _ Hd); [|number_ends_tac|lia].
    rewrite bind_Ok. cbv beta iota.
    apply drop_past in Hd. cbn [Nat.add] in Hd |- *.
    rewrite (string_at_head _ _ _ _ Hd), bind_Ok.
    rewrite Ascii.eqb_refl. simpl negb. cbv iota zeta.
    rewrite parseObject_loop_S, (string_at_head _ _ _ _ Hd), bind_Ok.
    by rewrite Ascii.eqb_refl.
  - intros Hc Hend. unfold parse. rewrite strip_char by done.
    rewrite (strip_dump v1 Hp1), strip_char, (strip_dump v2 Hp2) by done.
    change (strip_from false ["]"%char]) with ["]"%char].
    set (json := "["%char :: dump v1 ++ c :: dump v2 ++ ["]"%char]).
    assert (Hlen : length json = length (dump v1) + length (dump v2) + 3).
    { subst json. cbn [length]. rewrite length_app. cbn [length].
      rewrite length_app. simpl. lia. }
    destruct (dump_head v1 Hp1) as (c1 & r1 & Hh1 & Hc1 & _).
    destruct (dump_head v2 Hp2) as (c2 & r2 & Hh2 & Hc2 & _).
    replace (2 * length json + 3)
      with (S (S (S (S (2 * length (dump v1) + 2 * length (dump v2) + 5))))) by lia.
    rewrite parseRecursively_S.
    rewrite (string_at_head json 0 "["%char
               (dump v1 ++ c :: dump v2 ++ ["]"%char])), bind_Ok by done.
    change (Ascii.eqb "[" "{") with false. rewrite Ascii.eqb_refl. cbv iota.
    rewrite parseList_loop_S.
    assert (Hd : drop 1 json = dump v1 ++ c :: dump v2 ++ ["]"%char]) by done.
    rewrite (string_at_head json 1 c1 (r1 ++ c :: dump v2 ++ ["]"%char])), bind_Ok
      by (by rewrite Hd, Hh1).
    destruct (Ascii.eqb_spec c1 "]"); [done|].
    rewrite (parse_dump json v1 Hp1 _ _ _ Hd); [|done|lia].
    rewrite bind_Ok. cbv beta iota.
    apply drop_past in Hd.
    rewrite (string_at_head _ _ _ _ Hd), bind_Ok.
    destruct (Ascii.eqb_spec c "]"); [done|]. simpl negb. cbv iota zeta.
    apply drop_next in Hd.
    rewrite parseList_loop_S.
    rewrite (string_at_head json _ c2 (r2 ++ ["]"%char])), bind_Ok
      by (by rewrite Hd, Hh2).
    destruct (Ascii.eqb_spec c2 "]"); [done|].
    rewrite (parse_dump json v2 Hp2 _ _ _ Hd); [|number_ends_tac|lia].
    rewrite bind_Ok. cbv beta iota.
    apply drop_past in Hd.
    rewrite (string_at_head _ _ _ _ Hd), bind_Ok.
    rewrite Ascii.eqb_refl. simpl negb. cbv iota zeta.
    rewrite parseList_loop_S, (string_at_head _ _ _ _ Hd), bind_Ok.
    by rewrite Ascii.eqb_refl.
Qed.

(** ** Vivified keys and typed access *)

(** X20: the placeholder that key navigation puts under a missing key is
    a NullNode, and the typed accessors only work on a ValueNode: reading
    the new view at any leaf type, or assigning any leaf value to it, goes
    through the unchecked cast.  A value cannot be stored under a new key
    this way. *)
Theorem vivified_key_untyped (h : list Node) (j : Json)
    (children : list (std_string * ptr)) (key : std_string) :
  h !! root j = Some (ObjectNode children) ->
  map_find key children = None ->
  exists (v : View) (h' : list Node),
    Json_index_key h j key = Ok (v, h')
    /\ h' !! node v = Some NullNode
    /\ (forall T, View_as T h' v = Undefined)
    /\ (forall T (x : leaf T), View_assign T h' v x = Undefined).
Proof.
  intros Hp Hfind. pose proof (lookup_lt_Some _ _ _ Hp) as Hlt.
  unfold Json_index_key. rewrite Hp. simpl. rewrite Hfind.
  eexists _, _. split; [reflexivity|]. simpl.
  assert (Hnew : addOrEditChild (h ++ [NullNode]) (root j) key (length h) !! length h
                 = Some NullNode).
  { unfold addOrEditChild. rewrite lookup_app_l, Hp by done.
    rewrite list_lookup_insert_ne by lia. by rewrite list_lookup_middle. }
  split; [done|]. split.
  - intros T. unfold View_as; simpl. rewrite Hnew. by destruct T.
  - intros T x. unfold View_assign; simpl. rewrite Hnew. by destruct T.
Qed.

(** ** Serializing a constructed array *)

Lemma load_S (fuel : nat) (h : list Node) (p : ptr) :
  load (S fuel) h p
  = match h !! p with
    | None => None
    | Some NullNode => Some VNull
    | Some (ValueNode_bool b) => Some (VBool b)
    | Some (ValueNode_int z) => Some (VInt z)
    | Some (ValueNode_float f) => Some (VFloat f)
    | Some (ValueNode_string s) => Some (VString s)
    | Some (ListNode children) => VList <$> mapM (load fuel h) children
    | Some (ObjectNode children) =>
        VObject <$> mapM (fun kv => pair kv.1 <$> load fuel h kv.2) children
    end.
Proof. done. Qed.

(** X21: the document made by [Json::array] serializes as the List of
    what its elements serialize as: between brackets, the texts of the
    given documents in order, separated by commas. *)
Theorem array_dump (elems : list Json) (vs : list Value) (h : list Node) :
  Forall2 (fun e v => load (S (length h)) h (root e) = Some v) elems vs ->
  Json_dump (Json_array elems h).2 (Json_array elems h).1
  = Some ("["%char :: dump_items vs ++ ["]"%char]).
Proof.
  intros Hall. rewrite Json_array_eq. unfold Json_dump. cbn [fst snd root].
  rewrite length_app. cbn [length]. rewrite Nat.add_1_r.
  assert (Hm : mapM (load (S (length h)) (h ++ [ListNode (root <$> elems)]))
                 (root <$> elems) = Some vs).
  { apply mapM_Some. apply Forall2_fmap_l.
    eapply Forall2_impl; [exact Hall|]. intros e v He. cbv beta in *.
    eapply load_extend; [exact He|done]. }
  rewrite (load_S (S (length h))), list_lookup_middle by done.
  by rewrite Hm.
Qed.

(** ** Numbers *)

(** X22: a text that is a run of digits is read as the Int with that
    decimal value, leading zeros included, as long as the value fits an
    [int]; beyond INT_MAX the conversion is undefined, not an error. *)
Theorem parse_digits (c : ascii) (ds : std_string) :
  Forall (fun c => is_number c = true) (c :: ds) ->
  parse (c :: ds)
  = if (atoi_digits 0 (c :: ds) <=? INT_MAX)%Z
    then Ok (VInt (atoi_digits 0 (c :: ds)))
    else Undefined.
Proof.
  intros Hall. assert (Hc : is_number c = true) by by inversion Hall.
  destruct (is_number_other c Hc) as (Hsp & Hq & _ & Hm & Hpl & Hb1 & Hb2 & _ & _ & Ht & Hf).
  unfold parse.
  pose proof (strip_digits (c :: ds) [] Hall) as Hs. rewrite !app_nil_r in Hs.
  rewrite Hs.
  replace (2 * length (c :: ds) + 3) with (S (2 * length (c :: ds) + 2)) by lia.
  rewrite parseRecursively_S.
  rewrite (string_at_head (c :: ds) 0 c ds), bind_Ok by done.
  destruct (Ascii.eqb_spec c "{"); [done|]. destruct (Ascii.eqb_spec c "["); [done|].
  unfold parseValue. rewrite !substr_drop by (simpl; lia). rewrite !bind_Ok, drop_0.
  rewrite !string_eqb_ne; cycle 1.
  { intros [= ? _]. done. }
  { intros [= ? _]. done. }
  rewrite (string_at_head (c :: ds) 0 c ds), bind_Ok, Hc by done.
  pose proof (scan_number_digits (c :: ds) [] Hall I) as Hscan.
  rewrite app_nil_r in Hscan. rewrite Hscan.
  rewrite Nat.add_0_l. unfold atoi. cbn [skip_space]. rewrite Hsp.
  assert (E : match c :: ds with
              | "-"%char :: r => (- atoi_digits 0 r)%Z
              | "+"%char :: r => atoi_digits 0 r
              | r => atoi_digits 0 r
              end = atoi_digits 0 (c :: ds)).
  { clear -Hm Hpl. destruct c as [[] [] [] [] [] [] [] []]; done. }
  rewrite E.
  pose proof (atoi_digits_nonneg (c :: ds) 0 ltac:(done)).
  destruct (Z.leb_spec INT_MIN (atoi_digits 0 (c :: ds))) as [_|Hlt];
    [|unfold INT_MIN in Hlt; lia].
  by destruct (Z.leb_spec (atoi_digits 0 (c :: ds)) INT_MAX).
Qed.

(** ** Vivification in the output *)

(** Below the cell that is updated nothing is read differently. *)
Lemma load_update_above (H : list Node) (rank : ptr -> nat) (p : ptr) (n' : Node) :
  (forall q n, H !! q = Some n -> Forall (fun c => rank c < rank q) (children_of n)) ->
  forall fuel q v,
    load fuel H q = Some v -> rank q < rank p ->
    load fuel (<[p := n']> H) q = Some v.
Proof.
  intros Hrank. induction fuel as [|fuel IH]; intros q v Hload Hq; [done|].
  rewrite load_S in *.
  assert (q <> p) by (intros ->; lia).
  rewrite list_lookup_insert_ne by done.
  destruct (H !! q) as [n|] eqn:Hn; [|done].
  pose proof (Hrank q n Hn) as Hch.
  destruct n as [|children|children| | | |]; try done.
  - apply fmap_Some in Hload as (vs & Hvs & ->).
    apply fmap_Some. exists vs. split; [|done].
    apply mapM_Some. apply mapM_Some in Hvs. cbn [children_of] in Hch.
    clear Hn. induction Hvs as [|[key c] e children vs He _ IHvs]; [constructor|].
    rewrite fmap_cons in Hch. inversion Hch as [|? ? Hc Hch']; subst.
    constructor; [|by apply IHvs]. simpl in *.
    apply fmap_Some in He as (v & Hv & ->). apply fmap_Some. exists v.
    split; [|done]. apply IH; [done|lia].
  - apply fmap_Some in Hload as (vs & Hvs & ->).
    apply fmap_Some. exists vs. split; [|done].
    apply mapM_Some. apply mapM_Some in Hvs. cbn [children_of] in Hch.
    clear Hn. induction Hvs as [|c e children vs He _ IHvs]; [constructor|].
    inversion Hch as [|? ? Hc Hch']; subst.
    constructor; [|by apply IHvs]. apply IH; [done|lia].
Qed.

Lemma Forall2_map_assign {V W} (R : V -> W -> Prop) (key : std_string) (x : V) (y : W)
    (m : list (std_string * V)) (es : list (std_string * W)) :
  R x y ->
  Forall2 (fun kv e => kv.1 = e.1 /\ R kv.2 e.2) m es ->
  Forall2 (fun kv e => kv.1 = e.1 /\ R kv.2 e.2)
    (map_assign key x m) (map_assign key y es).
Proof.
  intros Hxy. induction 1 as [|[k v] [k' w] m es [Hk Hvw] Hm IH]; simpl.
  - by repeat constructor.
  - simpl in Hk, Hvw. subst k'.
    destruct (key_compare key k); repeat constructor; simpl; auto.
Qed.

(** X23: reading a missing key shows in the output.  After [json[key]]
    on a well-formed document whose root Object lacks the key, the
    document serializes as before with one more entry, the key with the
    value null, at the key's place in the order. *)
Theorem vivification_in_dump (h : list Node) (j : Json)
    (children : list (std_string * ptr)) (entries : list (std_string * Value))
    (key : std_string) :
  heap_ok h ->
  h !! root j = Some (ObjectNode children) ->
  map_find key children = None ->
  load (S (length h)) h (root j) = Some (VObject entries) ->
  exists (v : View) (h' : list Node),
    Json_index_key h j key = Ok (v, h')
    /\ Json_dump h j = Some (dump (VObject entries))
    /\ Json_dump h' j = Some (dump (VObject (map_assign key VNull entries))).
Proof.
  intros [rank Hrank] Hp Hfind Hload.
  pose proof (lookup_lt_Some _ _ _ Hp) as Hlt.
  unfold Json_index_key. rewrite Hp. simpl. rewrite Hfind.
  eexists _, _. split; [reflexivity|]. split.
  { unfold Json_dump. by rewrite Hload. }
  unfold Json_dump, addOrEditChild. rewrite lookup_app_l, Hp by done.
  rewrite length_insert, length_app. cbn [length]. rewrite Nat.add_1_r.
  rewrite load_S, list_lookup_insert_eq by (rewrite length_app; lia).
  rewrite load_S, Hp in Hload.
  apply fmap_Some in Hload as (es & Hes & [= ->]).
  destruct (Hrank _ _ Hp) as [_ Hch]. cbn [children_of] in Hch.
  set (H' := <[root j := ObjectNode (map_assign key (length h) children)]>
               (h ++ [NullNode])).
  assert (Hnull : load (S (length h)) H' (length h) = Some VNull).
  { subst H'. rewrite load_S, list_lookup_insert_ne by lia.
    by rewrite list_lookup_middle. }
  assert (Hold : forall c v,
             rank c < rank (root j) ->
             load (length h) h c = Some v ->
             load (S (length h)) H' c = Some v).
  { intros c v Hc Hv. subst H'. apply (load_update_above _ rank); [|
      eapply load_extend; [exact Hv|lia] |done].
    intros q n Hq. destruct (Nat.eq_dec q (length h)) as [->|Hne].
    - rewrite list_lookup_middle in Hq by done. injection Hq as <-. constructor.
    - assert (q < length h).
      { apply lookup_lt_Some in Hq. rewrite length_app in Hq. simpl in Hq. lia. }
      rewrite lookup_app_l in Hq by done.
      destruct (Hrank q n Hq) as [_ Hq'].
      eapply Forall_impl; [exact Hq'|]. by intros ? [_ ?]. }
  assert (Hm : mapM (fun kv => pair kv.1 <$> load (S (length h)) H' kv.2)
                 (map_assign key (length h) children)
               = Some (map_assign key VNull es)).
  { apply mapM_Some.
    eapply Forall2_impl;
      [apply (Forall2_map_assign
                (fun c v => load (S (length h)) H' c = Some v)
                key (length h) VNull children es Hnull)|].
    - apply mapM_Some in Hes. clearbody H'. clear Hp Hfind Hnull.
      induction Hes as [|[k c] e children es He _ IHes]; [constructor|].
      rewrite fmap_cons in Hch. inversion Hch as [|? ? [Hc Hrc] Hch']; subst.
      constructor; [|by apply IHes]. simpl in *.
      apply fmap_Some in He as (v & Hv & ->). split; [done|]. simpl.
      by apply Hold.
    - intros [k c] [k' v] [Hk Hv]. simpl in *. subst k'. by rewrite Hv. }
  by rewrite Hm.
Qed.

End Json.

(** * Closed examples

    The code run on given documents and texts, with [token_float] for the
    float. *)

Example sample_reads_back :
  (j ← Json_parse token_atof sample_text [];
   v ← fst <$> Json_index_key j.2 j.1 (lit "name");
   View_as leaf_string j.2 v) = Ok (lit "Jane")
  /\ (j ← Json_parse token_atof sample_text [];
      fs ← fst <$> Json_index_key j.2 j.1 (lit "friends");
      f ← View_index_idx j.2 fs 0;
      View_as leaf_string j.2 f) = Ok (lit "Bob")
  /\ (j ← Json_parse token_atof sample_text [];
      fs ← fst <$> Json_index_key j.2 j.1 (lit "friends");
      f ← View_index_idx j.2 fs 1;
      m ← fst <$> View_index_key j.2 f (lit "money");
      View_as leaf_float j.2 m) = Ok (token_atof (lit "100.34")).
Proof. repeat split; reflexivity. Qed.

(** The cells made for a parsed tree hold that tree. *)
Example sample_alloc_load :
  (j ← Json_parse token_atof sample_text [];
   Ok (load (S (length j.2)) j.2 (root j.1)))
  = Some <$> parse token_atof sample_text.
Proof. reflexivity. Qed.

(** An escaped quote toggles the tracker like any other: the space that
    follows it inside the string is taken for one outside and dropped. *)
Example str_clean_escaped_quote :
  str_clean (dquote :: "\"%char :: dquote :: " "%char :: [dquote])
  = dquote :: "\"%char :: dquote :: [dquote].
Proof. reflexivity. Qed.

(** C1, refuted as stated: from an empty Object root, the chain
    [root[a][b]] does not go through, let alone leave a nested object. *)
Lemma chained_navigation_counterexample :
  ~ (exists v1 h1 v2 h2,
        Json_index_key (float := token_float) [ObjectNode []] (mkJson 0) (lit "a")
        = Ok (v1, h1)
        /\ View_index_key h1 v1 (lit "b") = Ok (v2, h2)
        /\ Json_dump token_float_text h2 (mkJson 0)
           = Some (lit "{" ++ quoted "a" ++ lit ":{" ++ quoted "b" ++ lit ":null}}")).
Proof.
  intros (v1 & h1 & v2 & h2 & H1 & H2 & _).
  vm_compute in H1. injection H1 as <- <-. vm_compute in H2. discriminate.
Qed.

Lemma chained_key_navigation_witness :
  exists h' : list (@Node token_float),
    Json_index_key [ObjectNode []] (mkJson 0) (lit "a") = Ok (mkView 1, h')
    /\ View_index_key h' (mkView 1) (lit "b") = Throw NotObject
    /\ Json_dump token_float_text h' (mkJson 0)
       = Some (lit "{" ++ quoted "a" ++ lit ":null}").
Proof.
  exact (chained_key_navigation token_float_text
           [ObjectNode []] (mkJson 0) (lit "a") (lit "b") eq_refl).
Defined.

(** C3, refuted as stated: the document made from the integer -5
    serializes to a text that [parse] rejects. *)
Lemma roundtrip_counterexample :
  ~ (forall (h : list (@Node token_float)) (j : Json) (v : Value),
        load (S (length h)) h (root j) = Some v ->
        exists text,
          Json_dump token_float_text h j = Some text
          /\ parse token_atof text = Ok v).
Proof.
  intros H.
  destruct (H (Json_leaf (float := token_float) leaf_int (-5)%Z []).2
              (Json_leaf (float := token_float) leaf_int (-5)%Z []).1
              (VInt (-5)) eq_refl) as (text & Hd & Hp).
  vm_compute in Hd. injection Hd as <-. vm_compute in Hp. discriminate.
Qed.

(** What else the scalar grammar does not read back: the text of a Null,
    and a string with a quote in it, which comes back cut at that quote. *)
Example roundtrip_null_rejected :
  parse token_atof (dump token_float_text VNull) = Throw Malformed_ptr.
Proof. reflexivity. Qed.

Example roundtrip_quote_cut :
  parse token_atof (dump token_float_text (VString ("a"%char :: dquote :: lit "b")))
  = Ok (VString (lit "a")).
Proof. reflexivity. Qed.

Lemma dump_parse_roundtrip_witness :
  exists text,
    Json_dump token_float_text
      [ValueNode_int 24; ValueNode_string (lit "Jane doe"); ValueNode_bool true;
       ListNode [2; 0];
       ObjectNode [(lit "age", 0); (lit "friends", 3); (lit "name", 1)]]
      (mkJson 4) = Some text
    /\ parse token_atof text
       = Ok (VObject [(lit "age", VInt 24);
                      (lit "friends", VList [VBool true; VInt 24]);
                      (lit "name", VString (lit "Jane doe"))]).
Proof.
  apply (dump_parse_roundtrip token_atof token_float_text); [reflexivity|].
  constructor.
  - repeat constructor.
  - repeat constructor; try (vm_compute; congruence).
    all: vm_compute; intros H;
      repeat (apply elem_of_cons in H as [H|H]; [discriminate H|]);
      by apply elem_of_nil in H.
Defined.

Lemma index_key_not_object_witness :
  View_index_key (float := token_float) [ListNode []] (mkView 0) (lit "key")
  = Throw NotObject
  /\ Json_index_key (float := token_float) [ListNode []] (mkJson 0) (lit "key")
     = Throw NotObject.
Proof.
  apply (index_key_not_object [ListNode []] 0 (ListNode []) (lit "key"));
    [reflexivity|discriminate].
Defined.

(** C6, refuted as stated: on a text with two dots the cursor does not
    stop where a token with at most one dot would end. *)
Lemma number_two_dots_counterexample :
  ~ (forall (json : std_string) (index : nat) (ch : ascii) (v : Value) (i' : nat),
        string_at json index = Ok ch ->
        is_number ch = true ->
        parseValue token_atof json index = Ok (v, i') ->
        i' = index + length (spec_number_run false (drop index json))).
Proof.
  intros H.
  specialize (H (lit "1.2.3") 0 "1"%char _ _ eq_refl eq_refl eq_refl).
  vm_compute in H. discriminate.
Qed.

Lemma parseValue_number_witness :
  exists number tail,
    drop 1 (lit "[1.2.3]") = number ++ tail
    /\ head number = Some "1"%char
    /\ Forall digit_or_dot number
    /\ number_ends tail
    /\ parseValue token_atof (lit "[1.2.3]") 1
       = if bool_decide ("."%char ∈ number)
         then Ok (VFloat (token_atof number), 1 + length number)
         else if (atoi_digits 0 number <=? INT_MAX)%Z
              then Ok (VInt (atoi_digits 0 number), 1 + length number)
              else Undefined.
Proof.
  exact (parseValue_number token_atof (lit "[1.2.3]") 1 "1"%char eq_refl eq_refl).
Defined.

(** C8, refuted as stated: a document put into two arrays is a child of
    both. *)
Lemma shared_root_counterexample :
  let '(a, h1) := Json_leaf (float := token_float) leaf_int 1%Z [] in
  let '(l1, h2) := Json_array [a] h1 in
  let '(l2, h3) := Json_array [a] h2 in
  exclusively_owned h1
  /\ owners h3 (root a) = [root l1; root l2]
  /\ ~ exclusively_owned h3.
Proof.
  simpl. split; [|split].
  - intros c. simpl. lia.
  - reflexivity.
  - intros H. specialize (H 0). vm_compute in H. lia.
Qed.

Lemma construction_shares_roots_witness :
  let a := (Json_leaf (float := token_float) leaf_int 1%Z []).1 in
  let h1 := (Json_leaf (float := token_float) leaf_int 1%Z []).2 in
  let h2 := (Json_array [a] h1).2 in
  a ∈ [a]
  /\ owners h2 (root a) <> []
  /\ 1 < length (owners (Json_array [a] h2).2 (root a))
  /\ ~ exclusively_owned (Json_array [a] h2).2.
Proof.
  intros a h1 h2.
  assert (Hin : a ∈ [a]) by apply list_elem_of_here.
  assert (Hparent : owners h2 (root a) <> []) by (vm_compute; discriminate).
  split; [exact Hin|]. split; [exact Hparent|].
  exact (proj2 (proj2 (proj1 (construction_shares_roots h2) [a])) a Hin Hparent).
Defined.

Lemma index_key_frame_witness :
  (View_index_key (float := token_float)
     [ObjectNode [(lit "a", 1)]; ValueNode_int 7] (mkView 0) (lit "a")
   = Ok (mkView 1, [ObjectNode [(lit "a", 1)]; ValueNode_int 7])
   /\ Json_index_key (float := token_float)
        [ObjectNode [(lit "a", 1)]; ValueNode_int 7] (mkJson 0) (lit "a")
      = Ok (mkView 1, [ObjectNode [(lit "a", 1)]; ValueNode_int 7]))
  /\ (exists (h' : list (@Node token_float)) children',
        View_index_key [ObjectNode [(lit "a", 1)]; ValueNode_int 7] (mkView 0) (lit "b")
        = Ok (mkView 2, h')
        /\ Json_index_key [ObjectNode [(lit "a", 1)]; ValueNode_int 7] (mkJson 0) (lit "b")
           = Ok (mkView 2, h')
        /\ length h' = 3
        /\ h' !! 2 = Some NullNode
        /\ h' !! 0 = Some (ObjectNode children')
        /\ map_find (lit "b") children' = Some 2
        /\ (forall k, k <> lit "b" ->
                      map_find k children' = map_find k [(lit "a", 1)])
        /\ (forall p', p' <> 0 -> p' < 2 ->
                       h' !! p' = [ObjectNode [(lit "a", 1)]; ValueNode_int 7] !! p')).
Proof.
  split.
  - exact (index_key_frame (float := token_float)
             [ObjectNode [(lit "a", 1)]; ValueNode_int 7] 0 [(lit "a", 1)]
             (lit "a") eq_refl).
  - exact (index_key_frame (float := token_float)
             [ObjectNode [(lit "a", 1)]; ValueNode_int 7] 0 [(lit "a", 1)]
             (lit "b") eq_refl).
Defined.

Lemma Json_cstr_string_leaf_witness :
  exists (j : Json) (h' : list (@Node token_float)),
    Json_cstr (lit "{" ++ quoted "a" ++ lit ":1}") [] = (j, h')
    /\ h' !! root j = Some (ValueNode_string (lit "{" ++ quoted "a" ++ lit ":1}"))
    /\ Json_as leaf_string h' j = Ok (lit "{" ++ quoted "a" ++ lit ":1}")
    /\ Json_dump token_float_text h' j
       = Some (dquote :: (lit "{" ++ quoted "a" ++ lit ":1}") ++ [dquote])
    /\ (forall p, p < 0 -> h' !! p = @nil (@Node token_float) !! p).
Proof.
  apply (Json_cstr_string_leaf token_float_text).
  vm_compute. intros H.
  repeat (apply elem_of_cons in H as [H|H]; [discriminate H|]).
  by apply elem_of_nil in H.
Defined.

(** * Closed examples for the further properties *)

(** A text is quote-free when the check over its characters says so. *)
Ltac quote_free_tac :=
  vm_compute; intros H;
  repeat (apply elem_of_cons in H as [H|H]; [discriminate H|]);
  by apply elem_of_nil in H.

Ltac printable_tac :=
  repeat (constructor; try (vm_compute; congruence)); try quote_free_tac.

Lemma index_idx_not_list_witness :
  View_index_idx (float := token_float) [ObjectNode []] (mkView 0) 3 = Throw NotList
  /\ Json_index_idx (float := token_float) [ObjectNode []] (mkJson 0) 3 = Throw NotList.
Proof.
  apply (index_idx_not_list [ObjectNode []] 0 (ObjectNode []) 3);
    [reflexivity|discriminate].
Defined.

Lemma assign_then_read_witness :
  exists h' : list (@Node token_float),
    View_assign leaf_int [ValueNode_int 5] (mkView 0) 6%Z = Ok (mkView 0, h')
    /\ (forall v', node v' = 0 -> View_as leaf_int h' v' = Ok 6%Z)
    /\ h' !! 0 = Some (ValueNode_int 6)
    /\ type <$> h' !! 0 = type <$> [ValueNode_int (float := token_float) 5] !! 0
    /\ length h' = 1
    /\ (forall p, p <> 0 -> h' !! p = [ValueNode_int (float := token_float) 5] !! p).
Proof.
  exact (assign_then_read (float := token_float) leaf_int
           [ValueNode_int 5] (mkView 0) 5%Z 6%Z eq_refl).
Defined.

Lemma index_key_twice_witness :
  View_index_key (float := token_float)
    [ObjectNode [(lit "x", 1)]; NullNode] (mkView 0) (lit "x")
  = Ok (mkView 1, [ObjectNode [(lit "x", 1)]; NullNode])
  /\ Json_index_key (float := token_float)
       [ObjectNode [(lit "x", 1)]; NullNode] (mkJson 0) (lit "x")
     = Ok (mkView 1, [ObjectNode [(lit "x", 1)]; NullNode]).
Proof.
  exact (index_key_twice (float := token_float) [ObjectNode []]
           [ObjectNode [(lit "x", 1)]; NullNode] 0 (lit "x") (mkView 1) eq_refl).
Defined.

Lemma object_then_key_witness :
  Json_index_key (float := token_float)
    (Json_object (float := token_float)
       [(lit "a", mkJson 0); (lit "b", mkJson 0); (lit "a", mkJson 1)]
       [ValueNode_int 1; ValueNode_int 2]).2
    (Json_object (float := token_float)
       [(lit "a", mkJson 0); (lit "b", mkJson 0); (lit "a", mkJson 1)]
       [ValueNode_int 1; ValueNode_int 2]).1 (lit "a")
  = Ok (mkView 1,
        (Json_object (float := token_float)
           [(lit "a", mkJson 0); (lit "b", mkJson 0); (lit "a", mkJson 1)]
           [ValueNode_int 1; ValueNode_int 2]).2).
Proof.
  apply (object_then_key (float := token_float)
           [(lit "a", mkJson 0); (lit "b", mkJson 0)] [] (lit "a") (mkJson 1)
           [ValueNode_int 1; ValueNode_int 2]).
  vm_compute. intros H. by apply elem_of_nil in H.
Defined.

Lemma parse_blank_witness : parse token_atof (lit "   ") = Throw Malformed_ptr.
Proof. apply (parse_blank token_atof (lit "   ")). by repeat constructor. Defined.

Lemma parse_ignores_rest_witness :
  parse token_atof (dump token_float_text (VList [VInt 1; VBool true]) ++ lit "]] junk")
  = Ok (VList [VInt 1; VBool true]).
Proof.
  apply (parse_ignores_rest token_atof token_float_text).
  - printable_tac.
  - vm_compute. intros [H|H]; discriminate H.
Defined.

Lemma parse_unterminated_string_witness :
  parse token_atof (dquote :: lit "abc") = Undefined.
Proof. apply (parse_unterminated_string token_atof). quote_free_tac. Defined.

Lemma parse_unclosed_container_witness :
  parse token_atof ("["%char :: dump token_float_text (VInt 1)) = Undefined
  /\ parse token_atof
       ("{"%char :: dquote :: lit "a" ++ dquote :: ":"%char
        :: dump token_float_text (VInt 1)) = Undefined.
Proof.
  apply (parse_unclosed_container token_atof token_float_text (VInt 1) (lit "a")).
  - printable_tac.
  - quote_free_tac.
Defined.

Lemma parse_object_bad_key_witness :
  parse token_atof ("{"%char :: "a"%char :: lit ":1}") = Throw Malformed
  /\ parse token_atof ["{"%char] = Throw Malformed.
Proof.
  apply (parse_object_bad_key token_atof "a"%char (lit ":1}"));
    [reflexivity|discriminate|discriminate].
Defined.

Lemma parse_object_any_order_witness :
  parse token_atof
    ("{"%char :: dump_entries token_float_text
                   [(lit "b", VInt 1); (lit "a", VInt 2); (lit "b", VInt 3)]
     ++ ["}"%char])
  = Ok (VObject [(lit "a", VInt 2); (lit "b", VInt 3)])
  /\ map_ok [(lit "a", VInt (float := token_float) 2); (lit "b", VInt 3)].
Proof.
  apply (parse_object_any_order token_atof token_float_text
           [(lit "b", VInt 1); (lit "a", VInt 2); (lit "b", VInt 3)]).
  repeat (constructor; [split; [quote_free_tac|printable_tac]|]). constructor.
Defined.

Lemma parse_pretty_witness :
  parse token_atof
    (pretty token_float_text
       (VObject [(lit "a", VList [VInt 1; VString (lit "x y")]); (lit "b", VBool false)]))
  = Ok (VObject [(lit "a", VList [VInt 1; VString (lit "x y")]); (lit "b", VBool false)]).
Proof.
  apply (parse_pretty token_atof token_float_text).
  constructor.
  - repeat constructor.
  - repeat (constructor; [split; [quote_free_tac|printable_tac]|]). constructor.
Defined.

Lemma dump_total_witness :
  exists text,
    Json_dump token_float_text [ValueNode_int 1; ListNode [0; 0]] (mkJson 1) = Some text.
Proof.
  apply (dump_total token_float_text [ValueNode_int 1; ListNode [0; 0]] (mkJson 1)).
  - apply (heap_ok_snoc [ValueNode_int 1] (ListNode [0; 0])).
    + apply (heap_ok_snoc [] (ValueNode_int 1) heap_ok_nil). constructor.
    + repeat constructor.
  - simpl. lia.
Defined.

Lemma heap_ok_preserved_witness :
  heap_ok (Json_array (float := token_float) [mkJson 0] [ObjectNode []]).2
  /\ (forall v h',
         Json_index_key (float := token_float) [ObjectNode []] (mkJson 0) (lit "a")
         = Ok (v, h') -> heap_ok h' /\ node v < length h').
Proof.
  assert (Hok : heap_ok (float := token_float) [ObjectNode []])
    by (apply (heap_ok_snoc [] (ObjectNode []) heap_ok_nil); constructor).
  destruct (heap_ok_preserved [ObjectNode []] Hok) as (_ & Harr & _ & Hkey & _).
  split.
  - apply Harr. repeat constructor.
  - intros v h'. apply Hkey.
Defined.

Lemma Json_parse_holds_tree_witness :
  exists (j : Json) (h' : list (@Node token_float)),
    Json_parse token_atof (lit "[1, true]") [NullNode] = Ok (j, h')
    /\ load (S (length h')) h' (root j) = Some (VList [VInt 1; VBool true])
    /\ Json_dump token_float_text h' j
       = Some (dump token_float_text (VList [VInt 1; VBool true]))
    /\ (forall p, p < 1 -> h' !! p = [NullNode (float := token_float)] !! p)
    /\ (heap_ok [NullNode (float := token_float)] -> heap_ok h').
Proof.
  exact (Json_parse_holds_tree token_atof token_float_text (lit "[1, true]")
           [NullNode] (VList [VInt 1; VBool true]) eq_refl).
Defined.

Lemma dump_injective_witness :
  VList [VInt (float := token_float) 10; VString (lit "a")]
  = VList [VInt 10; VString (lit "a")].
Proof.
  apply (dump_injective token_atof token_float_text);
    [printable_tac|printable_tac|reflexivity].
Defined.

Lemma parse_separators_unchecked_witness :
  parse token_atof
    ("{"%char :: dquote :: lit "a" ++ dquote :: "="%char
     :: dump token_float_text (VInt 1) ++ ["}"%char])
  = Ok (VObject [(lit "a", VInt 1)])
  /\ ("="%char <> "]"%char -> ~ digit_or_dot "="%char ->
      parse token_atof
        ("["%char :: dump token_float_text (VInt 1) ++ "="%char
         :: dump token_float_text (VInt 2) ++ ["]"%char])
      = Ok (VList [VInt 1; VInt 2])).
Proof.
  apply (parse_separators_unchecked token_atof token_float_text
           (lit "a") (VInt 1) (VInt 2) "="%char);
    [printable_tac|printable_tac|quote_free_tac|reflexivity|discriminate].
Defined.

Lemma vivified_key_untyped_witness :
  exists (v : View) (h' : list (@Node token_float)),
    Json_index_key [ObjectNode []] (mkJson 0) (lit "x") = Ok (v, h')
    /\ h' !! node v = Some NullNode
    /\ (forall T, View_as T h' v = Undefined)
    /\ (forall T (x : leaf T), View_assign T h' v x = Undefined).
Proof.
  exact (vivified_key_untyped (float := token_float) [ObjectNode []] (mkJson 0) []
           (lit "x") eq_refl eq_refl).
Defined.

Lemma array_dump_witness :
  Json_dump token_float_text
    (Json_array [mkJson 1; mkJson 0; mkJson 1]
                [ValueNode_int 7; ValueNode_string (lit "s")]).2
    (Json_array (float := token_float) [mkJson 1; mkJson 0; mkJson 1]
                [ValueNode_int 7; ValueNode_string (lit "s")]).1
  = Some ("["%char
          :: dump_items token_float_text
               [VString (lit "s"); VInt 7; VString (lit "s")]
          ++ ["]"%char]).
Proof.
  apply (array_dump token_float_text). by repeat constructor.
Defined.

Lemma parse_digits_witness :
  parse token_atof (lit "007")
  = if (atoi_digits 0 (lit "007") <=? INT_MAX)%Z
    then Ok (VInt (atoi_digits 0 (lit "007")))
    else Undefined.
Proof. apply (parse_digits token_atof "0"%char (lit "07")). by repeat constructor. Defined.

(** A number one above INT_MAX: the conversion has no defined result. *)
Example parse_int_overflow : parse token_atof (lit "2147483648") = Undefined.
Proof. reflexivity. Qed.

Lemma vivification_in_dump_witness :
  exists (v : View) (h' : list (@Node token_float)),
    Json_index_key [ValueNode_int 2; ObjectNode [(lit "b", 0)]] (mkJson 1) (lit "a")
    = Ok (v, h')
    /\ Json_dump token_float_text [ValueNode_int 2; ObjectNode [(lit "b", 0)]] (mkJson 1)
       = Some (dump token_float_text (VObject [(lit "b", VInt 2)]))
    /\ Json_dump token_float_text h' (mkJson 1)
       = Some (dump token_float_text
                 (VObject (map_assign (lit "a") VNull [(lit "b", VInt 2)]))).
Proof.
  apply (vivification_in_dump token_float_text
           [ValueNode_int 2; ObjectNode [(lit "b", 0)]] (mkJson 1)
           [(lit "b", 0)] [(lit "b", VInt 2)] (lit "a")).
  - apply (heap_ok_snoc [ValueNode_int 2] (ObjectNode [(lit "b", 0)])).
    + apply (heap_ok_snoc [] (ValueNode_int 2) heap_ok_nil). constructor.
    + repeat constructor.
  - reflexivity.
  - reflexivity.
  - reflexivity.
Defined.
